(** * Fan-out dispatch of takahe: [activities/models/fan_out.py]

    A shallow embedding of [FanOutStates.handle_new] and of the [FanOut]
    model it runs on, with the properties of the fan-out specification
    stated and settled against it.

    The handler is effectful: it reads the job table, calls collaborators
    that may raise, mutates the timeline table and issues signed requests.
    It is embedded in a state-and-exception monad over a [World]; an
    exception keeps the effects performed before it, as in Python. *)

From stdpp Require Import gmap strings list.

Local Open Scope Z_scope.
Local Open Scope string_scope.
Local Open Scope list_scope.

(** ** Data model *)

(** Exceptions the handler can raise or let through. *)
Inductive exn : Type :=
  | ValueError (msg : string)
  | AttributeError (msg : string)
  | DoesNotExist
  | CollaboratorError (msg : string).

(** An activity-protocol document ([dict] in the source); its structure is
    never inspected by the handler. *)
Definition Doc : Type := string.

Module Identity.
(** [users.Identity], as far as the handler reads it.  [outbound_follows]
    holds what [outbound_follows.values_list("id", flat=True)] returns. *)
Record t : Type := mk {
  id : Z;
  local : bool;
  inbox_uri : string;
  outbound_follows : list Z
}.
End Identity.

Module Post.
(** Modelled from the spec: the declaration of [activities.Post] is not
    part of this file.  The spec gives a post an [author], an optional
    [inReplyTo] and a [mentions] set of identities; a populated
    [in_reply_to] is a reference, which is truthy. *)
Inductive reference : Type := Ref (target : string).

Record t : Type := mk {
  pk : Z;
  author : Identity.t;
  in_reply_to : option reference;
  mentions : list Identity.t
}.

Definition author_id (p : t) : Z := Identity.id (author p).
End Post.

Module PostInteraction.
(** [activities.PostInteraction]: [identity] is the interacting actor. *)
Record t : Type := mk {
  pk : Z;
  identity : Identity.t
}.
End PostInteraction.

Module TimelineEvent.
(** Rows of the timeline table.  Foreign keys are stored as primary keys,
    which is what the ORM compares in [filter(identity=..., subject_post=...)]. *)
Inductive Types : Type := post | mentioned | post_interaction.

Record t : Type := mk {
  identity : Z;
  type : Types;
  subject_post : option Z;
  subject_post_interaction : option Z
}.

#[export] Instance Types_eq_dec : EqDecision Types.
Proof. solve_decision. Defined.

#[export] Instance t_eq_dec : EqDecision t.
Proof. solve_decision. Defined.

Definition get_or_create (e : t) (rows : list t) : list t :=
  if decide (e ∈ rows) then rows else rows ++ [e].

(** Modelled from the spec: [TimelineEvent.add_post] is not part of this
    file.  The spec makes it the insertion of the recipient's timeline
    event for the post, a no-op when the identical event exists. *)
Definition post_event (identity : Identity.t) (p : Post.t) : t :=
  mk (Identity.id identity) post (Some (Post.pk p)) None.

Definition add_post (identity : Identity.t) (p : Post.t) (rows : list t) : list t :=
  get_or_create (post_event identity p) rows.

(** Modelled from the spec: [TimelineEvent.add_mentioned] is not part of
    this file.  The spec makes it the insertion of an additional event
    with the distinct visibility reason "mentioned". *)
Definition mentioned_event (identity : Identity.t) (p : Post.t) : t :=
  mk (Identity.id identity) mentioned (Some (Post.pk p)) None.

Definition add_mentioned (identity : Identity.t) (p : Post.t) (rows : list t) : list t :=
  get_or_create (mentioned_event identity p) rows.

(** Modelled from the spec: [TimelineEvent.add_post_interaction] is not
    part of this file.  The spec makes it the insertion of a timeline
    event representing the interaction. *)
Definition interaction_event (identity : Identity.t) (i : PostInteraction.t) : t :=
  mk (Identity.id identity) post_interaction None (Some (PostInteraction.pk i)).

Definition add_post_interaction (identity : Identity.t) (i : PostInteraction.t)
    (rows : list t) : list t :=
  get_or_create (interaction_event identity i) rows.

(** Modelled from the spec: [TimelineEvent.delete_post_interaction] is not
    part of this file.  The spec makes it the deletion of the timeline
    events representing that interaction for this recipient. *)
Definition delete_post_interaction (identity : Identity.t) (i : PostInteraction.t)
    (rows : list t) : list t :=
  filter (λ e, ¬ (TimelineEvent.identity e = Identity.id identity
                  ∧ subject_post_interaction e = Some (PostInteraction.pk i))) rows.

(** [TimelineEvent.objects.filter(identity=identity, subject_post=post).adelete()]:
    the rows matching both conditions go, the others stay in order. *)
Definition filter_adelete (identity : Identity.t) (p : Post.t) (rows : list t) : list t :=
  filter (λ e, ¬ (TimelineEvent.identity e = Identity.id identity
                  ∧ subject_post e = Some (Post.pk p))) rows.
End TimelineEvent.

(** The two states of [FanOutStates]. *)
Inductive State : Type := new | sent.

#[export] Instance State_eq_dec : EqDecision State.
Proof. solve_decision. Defined.

Module FanOut.
(** [FanOut.Types]: a [TextChoices], so each member is its string value. *)
Module Types.
Definition post : string := "post".
Definition post_edited : string := "post_edited".
Definition post_deleted : string := "post_deleted".
Definition interaction : string := "interaction".
Definition undo_interaction : string := "undo_interaction".

Definition choices : list string :=
  [post; post_edited; post_deleted; interaction; undo_interaction].
End Types.

(** A [FanOut] row with its relations loaded.  [type] is a [CharField]:
    any string can be stored.  Both subject references are nullable and
    no constraint links them to [type].  The timestamps [created] and
    [updated] are never read by the handler and are left out. *)
Record t : Type := mk {
  pk : Z;
  identity : Identity.t;
  type : string;
  subject_post : option Post.t;
  subject_post_interaction : option PostInteraction.t;
  state : State
}.
End FanOut.

(** ** Effects *)

(** What the handler does to the outside, in the order it does it. *)
Inductive Call : Type :=
  | call_add_post (identity : Identity.t) (post : Post.t)
  | call_add_mentioned (identity : Identity.t) (post : Post.t)
  | call_filter_adelete (identity : Identity.t) (post : Post.t)
  | call_add_post_interaction (identity : Identity.t) (interaction : PostInteraction.t)
  | call_delete_post_interaction (identity : Identity.t) (interaction : PostInteraction.t)
  | call_signed_request (actor : Identity.t) (method uri : string) (body : Doc).

Definition is_signed_request (c : Call) : bool :=
  match c with call_signed_request _ _ _ _ => true | _ => false end.

(** The database tables the handler touches, and the history of its calls. *)
Record World : Type := mkWorld {
  fan_outs : gmap Z FanOut.t;
  timeline : list TimelineEvent.t;
  calls : list Call
}.

(** Signed requests issued so far. *)
Definition outbox (w : World) : list Call := List.filter is_signed_request (calls w).

(** The collaborators whose code lives elsewhere: each may raise. *)
Record Collaborators : Type := mkCollaborators {
  post_afetch_full : Post.t → exn + Post.t;
  interaction_afetch_full : PostInteraction.t → exn + PostInteraction.t;
  to_create_ap : Post.t → exn + Doc;
  to_update_ap : Post.t → exn + Doc;
  to_delete_ap : Post.t → exn + Doc;
  to_ap : PostInteraction.t → exn + Doc;
  to_undo_ap : PostInteraction.t → exn + Doc;
  canonicalise : Doc → exn + Doc;
  (** The transport behind [Identity.signed_request]: [None] on delivery. *)
  transport : Identity.t → string → string → Doc → option exn
}.

(** State and exception monad: the world after the computation, and either
    the exception raised or the value returned. *)
Definition M (A : Type) : Type := World → World * (exn + A).

#[export] Instance M_ret : MRet M := λ A a w, (w, inr a).

#[export] Instance M_bind : MBind M := λ A B f m w,
  match m w with
  | (w', inl e) => (w', inl e)
  | (w', inr a) => f a w'
  end.

Definition raise {A : Type} (e : exn) : M A := λ w, (w, inl e).

(** A collaborator's answer, raised when it is an exception. *)
Definition lift {A : Type} (r : exn + A) : M A := λ w, (w, r).

(** What a call does to the timeline table; a signed request leaves it alone. *)
Definition effect (c : Call) (rows : list TimelineEvent.t) : list TimelineEvent.t :=
  match c with
  | call_add_post identity post => TimelineEvent.add_post identity post rows
  | call_add_mentioned identity post => TimelineEvent.add_mentioned identity post rows
  | call_filter_adelete identity post => TimelineEvent.filter_adelete identity post rows
  | call_add_post_interaction identity interaction =>
      TimelineEvent.add_post_interaction identity interaction rows
  | call_delete_post_interaction identity interaction =>
      TimelineEvent.delete_post_interaction identity interaction rows
  | call_signed_request _ _ _ _ => rows
  end.

(** The timeline table after a sequence of calls. *)
Definition effects (cs : list Call) (rows : list TimelineEvent.t) : list TimelineEvent.t :=
  foldl (λ acc c, effect c acc) rows cs.

(** A timeline operation: logged, and applied to the timeline table. *)
Definition timeline_op (c : Call) : M unit :=
  λ w, (mkWorld (fan_outs w) (effect c (timeline w)) (calls w ++ [c]), inr ()).

(** [actor.signed_request(method=..., uri=..., body=...)]: the request is
    issued, then the transport's failure, if any, is raised. *)
Definition signed_request (env : Collaborators) (actor : Identity.t)
    (method uri : string) (body : Doc) : M unit :=
  λ w,
    let w' := mkWorld (fan_outs w) (timeline w)
                      (calls w ++ [call_signed_request actor method uri body]) in
    match transport env actor method uri body with
    | None => (w', inr ())
    | Some e => (w', inl e)
    end.

(** [FanOut.afetch_full]: [FanOut.objects.select_related(...).aget(pk=self.pk)]. *)
Definition afetch_full (instance : FanOut.t) : M FanOut.t :=
  λ w,
    match fan_outs w !! FanOut.pk instance with
    | Some row => (w, inr row)
    | None => (w, inl DoesNotExist)
    end.

(** [fan_out.subject_post.afetch_full()]: an attribute access on [None]
    when the reference is not populated. *)
Definition subject_post_afetch_full (env : Collaborators) (fan_out : FanOut.t)
    : M Post.t :=
  match FanOut.subject_post fan_out with
  | None => raise (AttributeError "'NoneType' object has no attribute 'afetch_full'")
  | Some p => lift (post_afetch_full env p)
  end.

Definition subject_post_interaction_afetch_full (env : Collaborators)
    (fan_out : FanOut.t) : M PostInteraction.t :=
  match FanOut.subject_post_interaction fan_out with
  | None => raise (AttributeError "'NoneType' object has no attribute 'afetch_full'")
  | Some i => lift (interaction_afetch_full env i)
  end.

(** ** The handler *)

(** The nine [case] clauses of the [match] statement, in source order. *)
Inductive Case : Type :=
  | case_post_or_edited_local
  | case_post_remote
  | case_post_edited_remote
  | case_post_deleted_local
  | case_post_deleted_remote
  | case_interaction_local
  | case_interaction_remote
  | case_undo_interaction_local
  | case_undo_interaction_remote.

#[export] Instance Case_eq_dec : EqDecision Case.
Proof. solve_decision. Defined.

(** [match (fan_out.type, fan_out.identity.local)]: the first clause whose
    pattern matches, [None] when only the wildcard does. *)
Definition match_case (type : string) (local : bool) : option Case :=
  if ((type =? FanOut.Types.post) || (type =? FanOut.Types.post_edited))
     && Bool.eqb local true then Some case_post_or_edited_local
  else if (type =? FanOut.Types.post) && Bool.eqb local false
    then Some case_post_remote
  else if (type =? FanOut.Types.post_edited) && Bool.eqb local false
    then Some case_post_edited_remote
  else if (type =? FanOut.Types.post_deleted) && Bool.eqb local true
    then Some case_post_deleted_local
  else if (type =? FanOut.Types.post_deleted) && Bool.eqb local false
    then Some case_post_deleted_remote
  else if (type =? FanOut.Types.interaction) && Bool.eqb local true
    then Some case_interaction_local
  else if (type =? FanOut.Types.interaction) && Bool.eqb local false
    then Some case_interaction_remote
  else if (type =? FanOut.Types.undo_interaction) && Bool.eqb local true
    then Some case_undo_interaction_local
  else if (type =? FanOut.Types.undo_interaction) && Bool.eqb local false
    then Some case_undo_interaction_remote
  else None.

(** [{identity.id for identity in post.mentions.all()}] *)
Definition mentioned_of (post : Post.t) : gset Z :=
  list_to_set (Identity.id <$> Post.mentions post).

(** [set(fan_out.identity.outbound_follows.values_list("id", flat=True))] *)
Definition followed_of (identity : Identity.t) : gset Z :=
  list_to_set (Identity.outbound_follows identity).

(** The value of [add] when the timeline insertion is decided. *)
Definition add_decision (identity : Identity.t) (post : Post.t) : bool :=
  let mentioned := mentioned_of post in
  let followed := followed_of identity in
  if bool_decide (is_Some (Post.in_reply_to post))
  then bool_decide (Post.author_id post ∈ followed)
       && bool_decide (mentioned ∩ followed ≠ ∅)
  else true.

(** Python's [str(bool)], as the f-string of the error message prints it. *)
Definition str_of_bool (b : bool) : string := if b then "True" else "False".

Definition unclassified_message (type : string) (local : bool) : string :=
  "Cannot fan out with type " +:+ type +:+ " local=" +:+ str_of_bool local.

(** The body of each clause. *)
Definition run_case (env : Collaborators) (fan_out : FanOut.t) (c : Case) : M unit :=
  let identity := FanOut.identity fan_out in
  match c with
  | case_post_or_edited_local =>
      post ← subject_post_afetch_full env fan_out;
      _ ← (if add_decision identity post
           then timeline_op (call_add_post identity post)
           else mret ());
      if bool_decide (Identity.id identity ∈ mentioned_of post)
      then timeline_op (call_add_mentioned identity post)
      else mret ()
  | case_post_remote =>
      post ← subject_post_afetch_full env fan_out;
      doc ← lift (to_create_ap env post);
      body ← lift (canonicalise env doc);
      signed_request env (Post.author post) "post" (Identity.inbox_uri identity) body
  | case_post_edited_remote =>
      post ← subject_post_afetch_full env fan_out;
      doc ← lift (to_update_ap env post);
      body ← lift (canonicalise env doc);
      signed_request env (Post.author post) "post" (Identity.inbox_uri identity) body
  | case_post_deleted_local =>
      post ← subject_post_afetch_full env fan_out;
      if Identity.local identity
      then timeline_op (call_filter_adelete identity post)
      else mret ()
  | case_post_deleted_remote =>
      post ← subject_post_afetch_full env fan_out;
      doc ← lift (to_delete_ap env post);
      body ← lift (canonicalise env doc);
      signed_request env (Post.author post) "post" (Identity.inbox_uri identity) body
  | case_interaction_local =>
      interaction ← subject_post_interaction_afetch_full env fan_out;
      timeline_op (call_add_post_interaction identity interaction)
  | case_interaction_remote =>
      interaction ← subject_post_interaction_afetch_full env fan_out;
      doc ← lift (to_ap env interaction);
      body ← lift (canonicalise env doc);
      signed_request env (PostInteraction.identity interaction) "post"
                     (Identity.inbox_uri identity) body
  | case_undo_interaction_local =>
      interaction ← subject_post_interaction_afetch_full env fan_out;
      timeline_op (call_delete_post_interaction identity interaction)
  | case_undo_interaction_remote =>
      interaction ← subject_post_interaction_afetch_full env fan_out;
      doc ← lift (to_undo_ap env interaction);
      body ← lift (canonicalise env doc);
      signed_request env (PostInteraction.identity interaction) "post"
                     (Identity.inbox_uri identity) body
  end.

(** The part of [handle_new] after the job is resolved. *)
Definition dispatch (env : Collaborators) (fan_out : FanOut.t) : M State :=
  let type := FanOut.type fan_out in
  let local := Identity.local (FanOut.identity fan_out) in
  match match_case type local with
  | Some c => _ ← run_case env fan_out c; mret sent
  | None => raise (ValueError (unclassified_message type local))
  end.

(** [FanOutStates.handle_new] *)
Definition handle_new (env : Collaborators) (instance : FanOut.t) : M State :=
  fan_out ← afetch_full instance;
  dispatch env fan_out.

(** [new.transitions_to(sent)]: the only edge of the state graph. *)
Definition transitions_to (a b : State) : bool :=
  match a, b with
  | new, sent => true
  | _, _ => false
  end.

(** [State(try_interval=300)] on [new]; [sent] has no handler to retry. *)
Definition try_interval (s : State) : option Z :=
  match s with
  | new => Some 300
  | sent => None
  end.

(** The calls a computation adds to the history when run from [w]. *)
Definition performed {A : Type} (m : M A) (w : World) : list Call :=
  drop (length (calls w)) (calls (m w).1).

(** ** Vocabulary of the specification *)

(** The recipient follows at least one identity the post mentions. *)
Definition follows_a_mentioned (identity : Identity.t) (post : Post.t) : Prop :=
  ∃ x : Z, x ∈ Identity.id <$> Post.mentions post
           ∧ x ∈ Identity.outbound_follows identity.

(** The dispatch matrix: five kinds times two localities. *)
Definition combinations : list (string * bool) :=
  c ← FanOut.Types.choices; [(c, true); (c, false)].

(** A combination is defined when a clause other than the wildcard takes it. *)
Definition defined (c : string * bool) : bool :=
  match match_case c.1 c.2 with
  | Some _ => true
  | None => false
  end.

(** The locality each clause is written for. *)
Definition case_local (c : Case) : bool :=
  match c with
  | case_post_or_edited_local | case_post_deleted_local
  | case_interaction_local | case_undo_interaction_local => true
  | _ => false
  end.

(** The three post kinds carry a post, the two interaction kinds an interaction. *)
Definition is_post_kind (type : string) : bool :=
  (type =? FanOut.Types.post) || (type =? FanOut.Types.post_edited)
  || (type =? FanOut.Types.post_deleted).

Definition Subject : Type := Post.t + PostInteraction.t.

(** Resolution: the subject the kind determines, fully fetched. *)
Definition resolve_subject (env : Collaborators) (fan_out : FanOut.t) : exn + Subject :=
  if is_post_kind (FanOut.type fan_out)
  then match FanOut.subject_post fan_out with
       | None => inl (AttributeError "'NoneType' object has no attribute 'afetch_full'")
       | Some p => match post_afetch_full env p with
                   | inl e => inl e
                   | inr post => inr (inl post)
                   end
       end
  else match FanOut.subject_post_interaction fan_out with
       | None => inl (AttributeError "'NoneType' object has no attribute 'afetch_full'")
       | Some i => match interaction_afetch_full env i with
                   | inl e => inl e
                   | inr interaction => inr (inr interaction)
                   end
       end.

(** Document construction: the serialiser of the kind, then [canonicalise]. *)
Definition build_body (env : Collaborators) (type : string) (s : Subject) : exn + Doc :=
  let document :=
    match s with
    | inl post =>
        if type =? FanOut.Types.post then to_create_ap env post
        else if type =? FanOut.Types.post_edited then to_update_ap env post
        else to_delete_ap env post
    | inr interaction =>
        if type =? FanOut.Types.interaction then to_ap env interaction
        else to_undo_ap env interaction
    end in
  match document with
  | inl e => inl e
  | inr doc => canonicalise env doc
  end.

(** The identity a delivery is signed by: the post's author, or the
    interacting identity. *)
Definition acting_identity (s : Subject) : Identity.t :=
  match s with
  | inl post => Post.author post
  | inr interaction => PostInteraction.identity interaction
  end.

(** The invariant the specification asks of a job: exactly one subject
    reference is populated, the one its kind determines. *)
Definition kind_matches_subject (j : FanOut.t) : bool :=
  if is_post_kind (FanOut.type j)
  then bool_decide (is_Some (FanOut.subject_post j))
       && bool_decide (FanOut.subject_post_interaction j = None)
  else if (FanOut.type j =? FanOut.Types.interaction)
          || (FanOut.type j =? FanOut.Types.undo_interaction)
  then bool_decide (FanOut.subject_post j = None)
       && bool_decide (is_Some (FanOut.subject_post_interaction j))
  else false.

(** The subject reference the kind determines is populated. *)
Definition determined_subject_populated (j : FanOut.t) : bool :=
  if is_post_kind (FanOut.type j)
  then bool_decide (is_Some (FanOut.subject_post j))
  else bool_decide (is_Some (FanOut.subject_post_interaction j)).

(** The job with the reference its kind does not determine replaced:
    [p] is used for an interaction kind, [i] for a post kind. *)
Definition with_other_subject (j : FanOut.t) (p : option Post.t)
    (i : option PostInteraction.t) : FanOut.t :=
  if is_post_kind (FanOut.type j)
  then FanOut.mk (FanOut.pk j) (FanOut.identity j) (FanOut.type j)
                 (FanOut.subject_post j) i (FanOut.state j)
  else FanOut.mk (FanOut.pk j) (FanOut.identity j) (FanOut.type j)
                 p (FanOut.subject_post_interaction j) (FanOut.state j).

(** ** Sample data *)

Module Sample.
Definition alice : Identity.t := Identity.mk 1 true "" [2; 3].
Definition bob : Identity.t := Identity.mk 2 false "https://b.example/inbox" [].
Definition carol : Identity.t := Identity.mk 3 false "https://c.example/inbox" [].
Definition dave : Identity.t := Identity.mk 4 true "" [].

(** A reply by bob that mentions carol. *)
Definition reply : Post.t := Post.mk 10 bob (Some (Post.Ref "https://c.example/p/9")) [carol].

(** A post by bob, not a reply, that mentions dave. *)
Definition shout : Post.t := Post.mk 11 bob None [dave].

(** A reply by bob that mentions dave and carol. *)
Definition reply_to_dave : Post.t :=
  Post.mk 12 bob (Some (Post.Ref "https://c.example/p/9")) [dave; carol].

Definition like : PostInteraction.t := PostInteraction.mk 20 carol.

(** Collaborators that always succeed. *)
Definition env : Collaborators :=
  mkCollaborators inr inr
    (λ _, inr "create") (λ _, inr "update") (λ _, inr "delete")
    (λ _, inr "interaction") (λ _, inr "undo")
    inr (λ _ _ _ _, None).

(** The same, with a transport that always fails. *)
Definition env_offline : Collaborators :=
  mkCollaborators inr inr
    (λ _, inr "create") (λ _, inr "update") (λ _, inr "delete")
    (λ _, inr "interaction") (λ _, inr "undo")
    inr (λ _ _ _ _, Some (CollaboratorError "timeout")).

Definition job (pk : Z) (identity : Identity.t) (type : string)
    (p : option Post.t) (i : option PostInteraction.t) : FanOut.t :=
  FanOut.mk pk identity type p i new.

Definition world_of (j : FanOut.t) (rows : list TimelineEvent.t) : World :=
  mkWorld {[ FanOut.pk j := j ]} rows [].

(** alice, who follows bob and carol, is sent bob's reply. *)
Definition reply_for_alice : FanOut.t :=
  job 100 alice FanOut.Types.post (Some reply) None.

(** dave, who follows nobody, is sent bob's post that mentions him. *)
Definition shout_for_dave : FanOut.t :=
  job 101 dave FanOut.Types.post (Some shout) None.

(** dave, who follows nobody, is sent bob's reply that mentions him. *)
Definition reply_for_dave : FanOut.t :=
  job 102 dave FanOut.Types.post_edited (Some reply_to_dave) None.

(** carol, on another server, is sent bob's post. *)
Definition create_for_carol : FanOut.t :=
  job 103 carol FanOut.Types.post (Some shout) None.

(** A row whose [type] is none of the five choices. *)
Definition stray_for_carol : FanOut.t :=
  job 104 carol "announce" (Some shout) None.

(** alice is told that bob's reply is gone. *)
Definition delete_for_alice : FanOut.t :=
  job 105 alice FanOut.Types.post_deleted (Some reply) None.

(** A row of kind [post] that carries an interaction and no post. *)
Definition mismatched : FanOut.t :=
  job 106 alice FanOut.Types.post None (Some like).

(** alice is sent carol's like. *)
Definition like_for_alice : FanOut.t :=
  job 107 alice FanOut.Types.interaction None (Some like).

(** alice's two events for the reply, dave's event for it, and alice's
    event for another post. *)
Definition rows : list TimelineEvent.t :=
  [ TimelineEvent.post_event alice reply;
    TimelineEvent.mentioned_event alice reply;
    TimelineEvent.post_event dave reply;
    TimelineEvent.post_event alice shout ].
End Sample.

(** The identity a timeline call is made for; a signed request has none. *)
Definition call_identity (c : Call) : option Identity.t :=
  match c with
  | call_add_post identity _ | call_add_mentioned identity _
  | call_filter_adelete identity _ | call_add_post_interaction identity _
  | call_delete_post_interaction identity _ => Some identity
  | call_signed_request _ _ _ _ => None
  end.

(** Further jobs, for the clauses the samples above do not reach. *)
Module Fixture.
(** A reply by bob that mentions nobody. *)
Definition bare_reply : Post.t :=
  Post.mk 13 Sample.bob (Some (Post.Ref "https://c.example/p/9")) [].

(** erin follows bob, carol and dave. *)
Definition erin : Identity.t := Identity.mk 5 true "" [2; 3; 4].

Definition edit_for_carol : FanOut.t :=
  Sample.job 108 Sample.carol FanOut.Types.post_edited (Some Sample.shout) None.

Definition delete_for_carol : FanOut.t :=
  Sample.job 109 Sample.carol FanOut.Types.post_deleted (Some Sample.shout) None.

Definition like_for_bob : FanOut.t :=
  Sample.job 110 Sample.bob FanOut.Types.interaction None (Some Sample.like).

Definition unlike_for_bob : FanOut.t :=
  Sample.job 111 Sample.bob FanOut.Types.undo_interaction None (Some Sample.like).

Definition unlike_for_alice : FanOut.t :=
  Sample.job 112 Sample.alice FanOut.Types.undo_interaction None (Some Sample.like).

Definition bare_reply_for_alice : FanOut.t :=
  Sample.job 113 Sample.alice FanOut.Types.post (Some bare_reply) None.

Definition reply_for_erin : FanOut.t :=
  Sample.job 114 erin FanOut.Types.post (Some Sample.reply_to_dave) None.

(** An in-memory instance that disagrees with the stored row 105 on
    everything but the primary key. *)
Definition stale_delete : FanOut.t :=
  Sample.job 105 Sample.carol FanOut.Types.interaction None None.
End Fixture.

(** ** Running the monad *)

Ltac run :=
  unfold subject_post_afetch_full, subject_post_interaction_afetch_full in *;
  unfold mbind, M_bind, mret, M_ret, lift, raise, timeline_op, signed_request in *.

Lemma handle_new_resolved env instance w fan_out :
  fan_outs w !! FanOut.pk instance = Some fan_out →
  handle_new env instance w = dispatch env fan_out w.
Proof.
  intros Hrow. unfold handle_new, afetch_full. run. by rewrite Hrow.
Qed.

Lemma handle_new_missing env instance w :
  fan_outs w !! FanOut.pk instance = None →
  handle_new env instance w = (w, inl DoesNotExist).
Proof.
  intros Hrow. unfold handle_new, afetch_full. run. by rewrite Hrow.
Qed.

Lemma performed_app {A : Type} (m : M A) (w : World) (cs : list Call) :
  calls (m w).1 = calls w ++ cs → performed m w = cs.
Proof.
  intros Heq. unfold performed. rewrite Heq. by rewrite drop_app_length.
Qed.

(** ** The reply filter *)

Lemma followed_of_spec identity (x : Z) :
  x ∈ followed_of identity ↔ x ∈ Identity.outbound_follows identity.
Proof. unfold followed_of. by rewrite elem_of_list_to_set. Qed.

Lemma mentioned_of_spec post (x : Z) :
  x ∈ mentioned_of post ↔ x ∈ Identity.id <$> Post.mentions post.
Proof. unfold mentioned_of. by rewrite elem_of_list_to_set. Qed.

Lemma add_decision_spec identity post :
  add_decision identity post = true ↔
  Post.in_reply_to post = None
  ∨ (is_Some (Post.in_reply_to post)
     ∧ Post.author_id post ∈ Identity.outbound_follows identity
     ∧ follows_a_mentioned identity post).
Proof.
  unfold add_decision, follows_a_mentioned. case_bool_decide as Hreply.
  - rewrite andb_true_iff, !bool_decide_eq_true, followed_of_spec. split.
    + intros [Hauthor Hmeet]. right. split_and!; [done..|].
      apply set_choose_L in Hmeet as [x Hx]. exists x.
      apply elem_of_intersection in Hx as [Hm Hf].
      by rewrite <- mentioned_of_spec, <- followed_of_spec.
    + intros [Hnone | (_ & Hauthor & x & Hm & Hf)].
      * rewrite Hnone in Hreply. by destruct Hreply.
      * split; [done|]. intros Hempty.
        assert (x ∈ mentioned_of post ∩ followed_of identity) as Hx
          by (apply elem_of_intersection; by rewrite mentioned_of_spec, followed_of_spec).
        rewrite Hempty in Hx. by apply not_elem_of_empty in Hx.
  - split; [|done]. intros _. left.
    destruct (Post.in_reply_to post); [|done]. destruct Hreply. by eexists.
Qed.

(** ** The timeline table *)

Lemma elem_of_get_or_create (x e : TimelineEvent.t) rows :
  x ∈ TimelineEvent.get_or_create e rows ↔ x = e ∨ x ∈ rows.
Proof.
  unfold TimelineEvent.get_or_create. case_decide as Hin.
  - split; [by right|]. intros [-> | Hx]; done.
  - rewrite elem_of_app, list_elem_of_singleton. tauto.
Qed.

Lemma get_or_create_present (e : TimelineEvent.t) rows :
  e ∈ rows → TimelineEvent.get_or_create e rows = rows.
Proof. intros Hin. unfold TimelineEvent.get_or_create. by rewrite decide_True. Qed.

(** ** Local posts and edits *)

Lemma dispatch_post_local env fan_out w p post :
  FanOut.type fan_out = FanOut.Types.post
  ∨ FanOut.type fan_out = FanOut.Types.post_edited →
  Identity.local (FanOut.identity fan_out) = true →
  FanOut.subject_post fan_out = Some p →
  post_afetch_full env p = inr post →
  let identity := FanOut.identity fan_out in
  let add := add_decision identity post in
  let named := bool_decide (Identity.id identity ∈ mentioned_of post) in
  dispatch env fan_out w =
    (mkWorld (fan_outs w)
       ((if named then TimelineEvent.add_mentioned identity post else id)
          ((if add then TimelineEvent.add_post identity post else id) (timeline w)))
       (calls w ++ (if add then [call_add_post identity post] else [])
                ++ (if named then [call_add_mentioned identity post] else [])),
     inr sent).
Proof.
  intros Htype Hlocal Hsubject Hfetch. cbv zeta. destruct w as [jobs rows history].
  unfold dispatch. rewrite Hlocal.
  assert (match_case (FanOut.type fan_out) true = Some case_post_or_edited_local)
    as -> by (destruct Htype as [-> | ->]; reflexivity).
  simpl. run. rewrite Hsubject, Hfetch.
  destruct (add_decision _ _), (bool_decide _); simpl;
    rewrite <- ?app_assoc, ?app_nil_r; reflexivity.
Qed.

(** C1. For a resolved job of kind [post] or [post_edited] with a local
    recipient, the handler calls [TimelineEvent.add_post] for the recipient
    and the post exactly when the post is not a reply, or it is a reply whose
    author the recipient follows and which mentions at least one identity the
    recipient follows.  When it does, the event is in the timeline afterwards;
    when it does not, the event is there afterwards only if it was before. *)
Theorem reply_filter_decides_insertion env instance w fan_out p post :
  fan_outs w !! FanOut.pk instance = Some fan_out →
  FanOut.type fan_out = FanOut.Types.post
  ∨ FanOut.type fan_out = FanOut.Types.post_edited →
  Identity.local (FanOut.identity fan_out) = true →
  FanOut.subject_post fan_out = Some p →
  post_afetch_full env p = inr post →
  let identity := FanOut.identity fan_out in
  let inserted := call_add_post identity post ∈ performed (handle_new env instance) w in
  let after := timeline (handle_new env instance w).1 in
  (inserted ↔
     Post.in_reply_to post = None
     ∨ (is_Some (Post.in_reply_to post)
        ∧ Post.author_id post ∈ Identity.outbound_follows identity
        ∧ follows_a_mentioned identity post))
  ∧ (inserted → TimelineEvent.post_event identity post ∈ after)
  ∧ (¬ inserted →
     TimelineEvent.post_event identity post ∈ after →
     TimelineEvent.post_event identity post ∈ timeline w).
Proof.
  intros Hrow Htype Hlocal Hsubject Hfetch identity inserted after.
  subst inserted after.
  rewrite (handle_new_resolved _ _ _ _ Hrow).
  pose proof (dispatch_post_local env fan_out w p post Htype Hlocal Hsubject Hfetch)
    as Hrun. cbv zeta in Hrun. fold identity in Hrun.
  erewrite performed_app;
    [|rewrite (handle_new_resolved _ _ _ _ Hrow), Hrun; reflexivity].
  rewrite Hrun. simpl. rewrite <- add_decision_spec.
  assert (call_add_post identity post
            ∈ (if add_decision identity post then [call_add_post identity post] else [])
              ++ (if bool_decide (Identity.id identity ∈ mentioned_of post)
                  then [call_add_mentioned identity post] else [])
          ↔ add_decision identity post = true) as Hiff.
  { destruct (add_decision identity post), (bool_decide _); simpl; split;
      try done; try (intros _; by constructor);
      intros Hin; repeat (apply elem_of_cons in Hin as [Hin | Hin]; try done);
      by apply elem_of_nil in Hin. }
  rewrite Hiff. split_and!; [done| |].
  - intros ->. destruct (bool_decide _); simpl.
    + unfold TimelineEvent.add_mentioned, TimelineEvent.add_post.
      rewrite !elem_of_get_or_create. tauto.
    + unfold TimelineEvent.add_post. rewrite elem_of_get_or_create. tauto.
  - intros Hno. apply not_true_is_false in Hno. rewrite Hno.
    destruct (bool_decide _); simpl; [|done].
    unfold TimelineEvent.add_mentioned. rewrite elem_of_get_or_create.
    intros [Heq | Hin]; [discriminate Heq | done].
Qed.

Lemma reply_filter_decides_insertion_witness :
  call_add_post Sample.alice Sample.reply
    ∈ performed (handle_new Sample.env Sample.reply_for_alice)
                (Sample.world_of Sample.reply_for_alice [])
  ↔ Post.in_reply_to Sample.reply = None
    ∨ (is_Some (Post.in_reply_to Sample.reply)
       ∧ Post.author_id Sample.reply ∈ Identity.outbound_follows Sample.alice
       ∧ follows_a_mentioned Sample.alice Sample.reply).
Proof.
  refine (proj1 (reply_filter_decides_insertion Sample.env Sample.reply_for_alice
                   (Sample.world_of Sample.reply_for_alice []) Sample.reply_for_alice
                   Sample.reply Sample.reply _ _ _ _ _)).
  - reflexivity.
  - left. reflexivity.
  - reflexivity.
  - reflexivity.
  - reflexivity.
Defined.

(** The reply filter on a reply by bob that mentions carol and dave: a
    recipient following bob and carol gets it, one following bob alone or
    carol alone does not. *)
Example reply_filter_follows_author_and_mentioned :
  add_decision (Identity.mk 5 true "" [2; 3]) Sample.reply_to_dave = true.
Proof. reflexivity. Qed.

Example reply_filter_follows_author_only :
  add_decision (Identity.mk 5 true "" [2]) Sample.reply_to_dave = false.
Proof. reflexivity. Qed.

Example reply_filter_follows_mentioned_only :
  add_decision (Identity.mk 5 true "" [3]) Sample.reply_to_dave = false.
Proof. reflexivity. Qed.

Lemma handle_new_post_local env instance w fan_out p post :
  fan_outs w !! FanOut.pk instance = Some fan_out →
  FanOut.type fan_out = FanOut.Types.post
  ∨ FanOut.type fan_out = FanOut.Types.post_edited →
  Identity.local (FanOut.identity fan_out) = true →
  FanOut.subject_post fan_out = Some p →
  post_afetch_full env p = inr post →
  let identity := FanOut.identity fan_out in
  let add := add_decision identity post in
  let named := bool_decide (Identity.id identity ∈ mentioned_of post) in
  performed (handle_new env instance) w =
    (if add then [call_add_post identity post] else [])
    ++ (if named then [call_add_mentioned identity post] else [])
  ∧ timeline (handle_new env instance w).1 =
      (if named then TimelineEvent.add_mentioned identity post else id)
        ((if add then TimelineEvent.add_post identity post else id) (timeline w)).
Proof.
  intros Hrow Htype Hlocal Hsubject Hfetch. cbv zeta.
  pose proof (dispatch_post_local env fan_out w p post Htype Hlocal Hsubject Hfetch)
    as Hrun. cbv zeta in Hrun.
  split.
  - apply performed_app. by rewrite (handle_new_resolved _ _ _ _ Hrow), Hrun.
  - by rewrite (handle_new_resolved _ _ _ _ Hrow), Hrun.
Qed.

(** C2, as it stands, fails on a post that is not a reply: dave is mentioned
    and follows neither the author nor anybody else, and the ordinary
    timeline event is inserted all the same. *)
Lemma mention_without_follow_counterexample :
  ¬ (Identity.id Sample.dave ∈ Identity.id <$> Post.mentions Sample.shout →
     Post.author_id Sample.shout ∉ Identity.outbound_follows Sample.dave →
     ¬ follows_a_mentioned Sample.dave Sample.shout →
     call_add_mentioned Sample.dave Sample.shout
       ∈ performed (handle_new Sample.env Sample.shout_for_dave)
                   (Sample.world_of Sample.shout_for_dave [])
     ∧ call_add_post Sample.dave Sample.shout
       ∉ performed (handle_new Sample.env Sample.shout_for_dave)
                   (Sample.world_of Sample.shout_for_dave [])).
Proof.
  intros Hclaim. destruct Hclaim as [_ Hnot].
  - vm_compute. constructor.
  - vm_compute. apply not_elem_of_nil.
  - intros (x & _ & Hx). vm_compute in Hx. by apply not_elem_of_nil in Hx.
  - apply Hnot. vm_compute. constructor.
Qed.

(** C2, amended.  For a resolved job of kind [post] or [post_edited] with a
    local recipient who is among the identities the post mentions: the
    handler always calls [TimelineEvent.add_mentioned], whatever the reply
    filter decides, and the "mentioned" event, a row distinct from the
    ordinary one, is in the timeline afterwards.  If moreover the post is a
    reply and the recipient follows neither its author nor any other
    mentioned identity, [add_post] is not called.  If the recipient follows
    the author and some mentioned identity, both calls are made.  If the
    post is not a reply, both calls are made whatever the recipient
    follows: [add_post], then [add_mentioned]. *)
Theorem mention_insert_independent env instance w fan_out p post :
  fan_outs w !! FanOut.pk instance = Some fan_out →
  FanOut.type fan_out = FanOut.Types.post
  ∨ FanOut.type fan_out = FanOut.Types.post_edited →
  Identity.local (FanOut.identity fan_out) = true →
  FanOut.subject_post fan_out = Some p →
  post_afetch_full env p = inr post →
  let identity := FanOut.identity fan_out in
  Identity.id identity ∈ Identity.id <$> Post.mentions post →
  let made := performed (handle_new env instance) w in
  let after := timeline (handle_new env instance w).1 in
  (call_add_mentioned identity post ∈ made
   ∧ TimelineEvent.mentioned_event identity post ∈ after
   ∧ TimelineEvent.mentioned_event identity post
     ≠ TimelineEvent.post_event identity post)
  ∧ (is_Some (Post.in_reply_to post) →
     Post.author_id post ∉ Identity.outbound_follows identity →
     (∀ x : Z, x ∈ Identity.id <$> Post.mentions post →
               x ≠ Identity.id identity →
               x ∉ Identity.outbound_follows identity) →
     call_add_post identity post ∉ made)
  ∧ (Post.author_id post ∈ Identity.outbound_follows identity →
     follows_a_mentioned identity post →
     call_add_post identity post ∈ made
     ∧ TimelineEvent.post_event identity post ∈ after)
  ∧ (Post.in_reply_to post = None →
     made = [call_add_post identity post; call_add_mentioned identity post]
     ∧ TimelineEvent.post_event identity post ∈ after).
Proof.
  intros Hrow Htype Hlocal Hsubject Hfetch identity Hnamed made after.
  destruct (handle_new_post_local env instance w fan_out p post
              Hrow Htype Hlocal Hsubject Hfetch) as [Hmade Hafter].
  cbv zeta in Hmade, Hafter. fold identity in Hmade, Hafter.
  subst made after. rewrite Hmade, Hafter. clear Hmade Hafter.
  apply mentioned_of_spec in Hnamed. rewrite (bool_decide_eq_true_2 _ Hnamed).
  split_and!.
  - apply elem_of_app. right. constructor.
  - unfold TimelineEvent.add_mentioned. apply elem_of_get_or_create. by left.
  - discriminate.
  - intros Hreply Hauthor _.
    assert (add_decision identity post = false) as ->.
    { apply not_true_is_false. rewrite add_decision_spec.
      intros [Hnone | (_ & Hin & _)]; [|done].
      rewrite Hnone in Hreply. by destruct Hreply. }
    simpl. intros Hin. apply list_elem_of_singleton in Hin. discriminate Hin.
  - intros Hauthor Hmeet.
    assert (add_decision identity post = true) as ->.
    { apply add_decision_spec. destruct (Post.in_reply_to post) eqn:Hreply.
      - right. split_and!; [by eexists | done | done].
      - by left. }
    split.
    + apply elem_of_app. left. constructor.
    + unfold TimelineEvent.add_mentioned, TimelineEvent.add_post.
      rewrite !elem_of_get_or_create. tauto.
  - intros Hnone.
    assert (add_decision identity post = true) as ->
      by (apply add_decision_spec; by left).
    split; [done|].
    unfold TimelineEvent.add_mentioned, TimelineEvent.add_post.
    rewrite !elem_of_get_or_create. tauto.
Qed.

(** ** The shape of every run *)

Ltac crunch :=
  unfold handle_new, afetch_full, dispatch, run_case in *; run; simpl in *;
  repeat (case_match; simpl in *; simplify_eq; try done).

(** The handler reads nothing of the world but the job table: the calls it
    makes and its result are those of a run from an empty history, and the
    timeline afterwards is the effect of those calls. *)
Lemma handle_new_trace env instance w :
  let blank := handle_new env instance (mkWorld (fan_outs w) [] []) in
  handle_new env instance w =
    (mkWorld (fan_outs w) (effects (calls blank.1) (timeline w))
             (calls w ++ calls blank.1),
     blank.2).
Proof.
  destruct w as [jobs rows history]. cbv zeta. simpl.
  crunch; simpl; rewrite <- ?app_assoc, ?app_nil_r; reflexivity.
Qed.

Lemma performed_blank env instance w :
  performed (handle_new env instance) w
  = calls (handle_new env instance (mkWorld (fan_outs w) [] [])).1.
Proof. apply performed_app. by rewrite handle_new_trace. Qed.

Lemma handle_new_fan_outs env instance w :
  fan_outs (handle_new env instance w).1 = fan_outs w.
Proof. by rewrite handle_new_trace. Qed.

Lemma handle_new_timeline env instance w :
  timeline (handle_new env instance w).1
  = effects (performed (handle_new env instance) w) (timeline w).
Proof. rewrite performed_blank. by rewrite handle_new_trace. Qed.

Lemma handle_new_returns_sent env instance w s :
  (handle_new env instance w).2 = inr s → s = sent.
Proof. destruct w as [jobs rows history]. intros Hs. crunch. Qed.

(** ** The dispatch matrix *)

Ltac split_type type :=
  destruct (String.eqb_spec type FanOut.Types.post);
  destruct (String.eqb_spec type FanOut.Types.post_edited);
  destruct (String.eqb_spec type FanOut.Types.post_deleted);
  destruct (String.eqb_spec type FanOut.Types.interaction);
  destruct (String.eqb_spec type FanOut.Types.undo_interaction);
  simplify_eq; simpl in *.

Lemma match_case_None type local :
  match_case type local = None ↔ type ∉ FanOut.Types.choices.
Proof.
  unfold match_case, FanOut.Types.choices. rewrite !not_elem_of_cons.
  destruct local; split_type type; split; try done;
    try (intros (? & ? & ? & ? & ? & _); done).
  all: intros _; split_and!; try done; apply not_elem_of_nil.
Qed.

Lemma match_case_Some type local c :
  match_case type local = Some c →
  case_local c = local
  ∧ match c with
    | case_post_or_edited_local =>
        type = FanOut.Types.post ∨ type = FanOut.Types.post_edited
    | case_post_remote => type = FanOut.Types.post
    | case_post_edited_remote => type = FanOut.Types.post_edited
    | case_post_deleted_local | case_post_deleted_remote =>
        type = FanOut.Types.post_deleted
    | case_interaction_local | case_interaction_remote =>
        type = FanOut.Types.interaction
    | case_undo_interaction_local | case_undo_interaction_remote =>
        type = FanOut.Types.undo_interaction
    end.
Proof.
  unfold match_case.
  destruct local; split_type type; intros Hc; simplify_eq; simpl; auto.
Qed.

Lemma elem_of_choices type :
  type ∈ FanOut.Types.choices ↔
  type = FanOut.Types.post ∨ type = FanOut.Types.post_edited
  ∨ type = FanOut.Types.post_deleted ∨ type = FanOut.Types.interaction
  ∨ type = FanOut.Types.undo_interaction.
Proof.
  unfold FanOut.Types.choices. rewrite !elem_of_cons, elem_of_nil. tauto.
Qed.

(** ** Remote recipients *)

(** A remote job of one of the five kinds resolves its subject, builds the
    body, issues one request and returns [sent] when the transport delivers;
    an exception at any stage ends the run there. *)
Lemma handle_new_remote env instance w fan_out :
  fan_outs w !! FanOut.pk instance = Some fan_out →
  FanOut.type fan_out ∈ FanOut.Types.choices →
  Identity.local (FanOut.identity fan_out) = false →
  handle_new env instance w =
    match resolve_subject env fan_out with
    | inl e => (w, inl e)
    | inr s =>
        match build_body env (FanOut.type fan_out) s with
        | inl e => (w, inl e)
        | inr body =>
            let uri := Identity.inbox_uri (FanOut.identity fan_out) in
            (mkWorld (fan_outs w) (timeline w)
               (calls w ++ [call_signed_request (acting_identity s) "post" uri body]),
             match transport env (acting_identity s) "post" uri body with
             | None => inr sent
             | Some e => inl e
             end)
        end
    end.
Proof.
  intros Hrow Htype Hlocal. rewrite (handle_new_resolved _ _ _ _ Hrow).
  destruct fan_out as [pk identity type subject_post subject_interaction state].
  simpl in *. apply elem_of_choices in Htype.
  unfold dispatch, resolve_subject, build_body. simpl. rewrite Hlocal.
  destruct Htype as [-> | [-> | [-> | [-> | ->]]]]; simpl; run;
    repeat (case_match; simpl in *; simplify_eq; try congruence).
Qed.

(** A local job makes no signed request, whatever its kind. *)
Lemma handle_new_local_calls env instance w fan_out c :
  fan_outs w !! FanOut.pk instance = Some fan_out →
  Identity.local (FanOut.identity fan_out) = true →
  c ∈ performed (handle_new env instance) w →
  is_signed_request c = false.
Proof.
  intros Hrow Hlocal. rewrite performed_blank.
  rewrite (handle_new_resolved env instance _ fan_out) by done.
  unfold dispatch. rewrite Hlocal.
  destruct (match_case _ true) as [k|] eqn:Hcase; [|by intros ?%elem_of_nil].
  apply match_case_Some in Hcase as [Hk _].
  destruct k; try discriminate Hk; unfold run_case; run; simpl;
    repeat (case_match; simpl in *; simplify_eq; try done);
    intros Hin; repeat (apply elem_of_cons in Hin as [-> | Hin]; try done);
    by apply elem_of_nil in Hin.
Qed.

Lemma mention_insert_independent_witness :
  (call_add_post Sample.dave Sample.reply_to_dave
     ∉ performed (handle_new Sample.env Sample.reply_for_dave)
                 (Sample.world_of Sample.reply_for_dave []))
  ∧ performed (handle_new Sample.env Sample.shout_for_dave)
              (Sample.world_of Sample.shout_for_dave [])
    = [call_add_post Sample.dave Sample.shout;
       call_add_mentioned Sample.dave Sample.shout].
Proof.
  split.
  - refine (proj1 (proj2 (mention_insert_independent Sample.env
              Sample.reply_for_dave (Sample.world_of Sample.reply_for_dave [])
              Sample.reply_for_dave Sample.reply_to_dave Sample.reply_to_dave
              _ _ _ _ _ _)) _ _ _).
    + reflexivity.
    + right. reflexivity.
    + reflexivity.
    + reflexivity.
    + reflexivity.
    + vm_compute. constructor.
    + vm_compute. by eexists.
    + vm_compute. apply not_elem_of_nil.
    + intros x _ _. vm_compute. apply not_elem_of_nil.
  - refine (proj1 (proj2 (proj2 (proj2 (mention_insert_independent Sample.env
              Sample.shout_for_dave (Sample.world_of Sample.shout_for_dave [])
              Sample.shout_for_dave Sample.shout Sample.shout
              _ _ _ _ _ _))) _)).
    + reflexivity.
    + left. reflexivity.
    + reflexivity.
    + reflexivity.
    + reflexivity.
    + vm_compute. constructor.
    + reflexivity.
Defined.

(** C3, as it stands, fails: the count of defined combinations is not 8,
    with 2 left over. *)
Lemma dispatch_matrix_counterexample :
  ¬ (length (List.filter defined combinations) = 8%nat
     ∧ length (List.filter (λ c, negb (defined c)) combinations) = 2%nat).
Proof. vm_compute. intros [Hcount _]. discriminate Hcount. Qed.

(** C3, amended.  All 10 combinations of the 5 kinds and the 2 localities
    are defined: each is taken by a clause written for its locality, the 10
    of them by 9 clauses ([post] and [post_edited] share the local one), and
    the handler then runs that clause.  The wildcard, which raises, takes
    exactly the rows whose [type] is none of the five. *)
Theorem dispatch_matrix_total :
  length combinations = 10%nat
  ∧ List.filter defined combinations = combinations
  ∧ length (remove_dups (omap (λ c, match_case c.1 c.2) combinations)) = 9%nat
  ∧ (∀ type local, type ∈ FanOut.Types.choices →
       ∃ c, match_case type local = Some c ∧ case_local c = local
            ∧ ∀ env fan_out w,
                FanOut.type fan_out = type →
                Identity.local (FanOut.identity fan_out) = local →
                dispatch env fan_out w = (_ ← run_case env fan_out c; mret sent) w)
  ∧ (∀ type local, match_case type local = None ↔ type ∉ FanOut.Types.choices).
Proof.
  split_and!; [reflexivity | reflexivity | by vm_compute | | apply match_case_None].
  intros type local Htype.
  destruct (match_case type local) as [c|] eqn:Hcase.
  - exists c. split_and!; [done | by apply match_case_Some in Hcase as [? _] |].
    intros env fan_out w <- <-. unfold dispatch. by rewrite Hcase.
  - by apply match_case_None in Hcase.
Qed.

Lemma dispatch_matrix_total_witness :
  ∃ c, match_case FanOut.Types.undo_interaction false = Some c
       ∧ case_local c = false
       ∧ ∀ env fan_out w,
           FanOut.type fan_out = FanOut.Types.undo_interaction →
           Identity.local (FanOut.identity fan_out) = false →
           dispatch env fan_out w = (_ ← run_case env fan_out c; mret sent) w.
Proof.
  refine (proj1 (proj2 (proj2 (proj2 dispatch_matrix_total)))
            FanOut.Types.undo_interaction false _).
  vm_compute. do 4 right. left.
Defined.

Lemma handle_new_wildcard env instance w fan_out :
  fan_outs w !! FanOut.pk instance = Some fan_out →
  match_case (FanOut.type fan_out) (Identity.local (FanOut.identity fan_out)) = None →
  handle_new env instance w =
    (w, inl (ValueError (unclassified_message (FanOut.type fan_out)
                           (Identity.local (FanOut.identity fan_out))))).
Proof.
  intros Hrow Hcase. rewrite (handle_new_resolved _ _ _ _ Hrow).
  unfold dispatch. by rewrite Hcase.
Qed.

Lemma handle_new_unresolved_subject env instance w fan_out e :
  fan_outs w !! FanOut.pk instance = Some fan_out →
  FanOut.type fan_out ∈ FanOut.Types.choices →
  resolve_subject env fan_out = inl e →
  handle_new env instance w = (w, inl e).
Proof.
  intros Hrow Htype. rewrite (handle_new_resolved _ _ _ _ Hrow).
  destruct fan_out as [pk [id local uri follows] type subject_post subject_interaction state].
  simpl in *. apply elem_of_choices in Htype.
  unfold dispatch, resolve_subject. simpl.
  destruct local, Htype as [-> | [-> | [-> | [-> | ->]]]]; simpl; run;
    repeat (case_match; simpl in *; simplify_eq; try congruence).
Qed.

Lemma filter_none {A : Type} (f : A → bool) (l : list A) :
  (∀ x, x ∈ l → f x = false) → List.filter f l = [].
Proof.
  induction l as [|x l IH]; intros Hall; [done|]. simpl.
  rewrite (Hall x) by constructor. apply IH. intros y Hy. apply Hall. by constructor.
Qed.

(** C4. A resolved job whose kind and locality match no clause makes the
    handler raise [ValueError] with a message that spells out the [type] and
    the locality; the world is left as it was, so no timeline operation and
    no delivery is performed. *)
Theorem unclassified_raises env instance w fan_out :
  fan_outs w !! FanOut.pk instance = Some fan_out →
  match_case (FanOut.type fan_out) (Identity.local (FanOut.identity fan_out)) = None →
  handle_new env instance w =
    (w, inl (ValueError
               ("Cannot fan out with type " +:+ FanOut.type fan_out +:+ " local="
                +:+ (if Identity.local (FanOut.identity fan_out)
                     then "True" else "False"))))
  ∧ performed (handle_new env instance) w = [].
Proof.
  intros Hrow Hcase. split.
  - by apply handle_new_wildcard.
  - apply performed_app. rewrite (handle_new_wildcard _ _ _ _ Hrow Hcase).
    simpl. by rewrite app_nil_r.
Qed.

Lemma unclassified_raises_witness :
  handle_new Sample.env Sample.stray_for_carol
             (Sample.world_of Sample.stray_for_carol Sample.rows)
  = (Sample.world_of Sample.stray_for_carol Sample.rows,
     inl (ValueError "Cannot fan out with type announce local=False"))
  ∧ performed (handle_new Sample.env Sample.stray_for_carol)
              (Sample.world_of Sample.stray_for_carol Sample.rows) = [].
Proof.
  apply (unclassified_raises Sample.env Sample.stray_for_carol
           (Sample.world_of Sample.stray_for_carol Sample.rows)
           Sample.stray_for_carol).
  - reflexivity.
  - reflexivity.
Defined.

(** ** Deleting a post from a local timeline *)

(** C6. For a resolved job of kind [post_deleted] with a local recipient
    whose subject post is fetched, the handler returns [sent] and the
    timeline afterwards is the timeline before without the rows whose
    identity is the recipient and whose subject post is that post: every
    such row is gone, every other row stays, in order and as often as it
    occurred; nothing else is called. *)
Theorem post_deleted_local_removes_events env instance w fan_out p post :
  fan_outs w !! FanOut.pk instance = Some fan_out →
  FanOut.type fan_out = FanOut.Types.post_deleted →
  Identity.local (FanOut.identity fan_out) = true →
  FanOut.subject_post fan_out = Some p →
  post_afetch_full env p = inr post →
  let recipient := Identity.id (FanOut.identity fan_out) in
  let hit (e : TimelineEvent.t) :=
    TimelineEvent.identity e = recipient
    ∧ TimelineEvent.subject_post e = Some (Post.pk post) in
  let after := timeline (handle_new env instance w).1 in
  (handle_new env instance w).2 = inr sent
  ∧ after = filter (λ e, ¬ hit e) (timeline w)
  ∧ (∀ e, hit e → e ∉ after)
  ∧ (∀ e, ¬ hit e → (e ∈ after ↔ e ∈ timeline w))
  ∧ performed (handle_new env instance) w
    = [call_filter_adelete (FanOut.identity fan_out) post].
Proof.
  intros Hrow Htype Hlocal Hsubject Hfetch recipient hit after.
  assert (handle_new env instance w =
            (mkWorld (fan_outs w) (filter (λ e, ¬ hit e) (timeline w))
               (calls w ++ [call_filter_adelete (FanOut.identity fan_out) post]),
             inr sent)) as Hrun.
  { rewrite (handle_new_resolved _ _ _ _ Hrow). unfold dispatch.
    rewrite Htype, Hlocal. simpl. run. rewrite Hsubject, Hfetch, Hlocal.
    reflexivity. }
  subst after. rewrite (performed_app _ _ _ (f_equal (calls ∘ fst) Hrun)), Hrun.
  simpl. split_and!; try done.
  - intros e He Hin. apply list_elem_of_filter in Hin as [Hno _]. by apply Hno.
  - intros e He. rewrite list_elem_of_filter. tauto.
Qed.

Lemma post_deleted_local_removes_events_witness :
  timeline (handle_new Sample.env Sample.delete_for_alice
              (Sample.world_of Sample.delete_for_alice Sample.rows)).1
  = [TimelineEvent.post_event Sample.dave Sample.reply;
     TimelineEvent.post_event Sample.alice Sample.shout].
Proof.
  rewrite (proj1 (proj2 (post_deleted_local_removes_events Sample.env
             Sample.delete_for_alice
             (Sample.world_of Sample.delete_for_alice Sample.rows)
             Sample.delete_for_alice Sample.reply Sample.reply
             eq_refl eq_refl eq_refl eq_refl eq_refl))).
  reflexivity.
Defined.

(** ** Delivering a new post to a remote inbox *)

(** C7. For a resolved job of kind [post] with a remote recipient whose
    subject post is fetched: when the create document is built and
    canonicalised, the handler issues exactly one signed request, signed by
    the post's author, with method "post", to the recipient's inbox URI and
    with that document as body, and it returns [sent] exactly when the
    transport delivers the request, raising the transport's exception
    otherwise.  Conversely, whenever the handler returns [sent], that one
    request was issued and delivered.  The timeline is never touched. *)
Theorem post_remote_one_signed_request env instance w fan_out p post :
  fan_outs w !! FanOut.pk instance = Some fan_out →
  FanOut.type fan_out = FanOut.Types.post →
  Identity.local (FanOut.identity fan_out) = false →
  FanOut.subject_post fan_out = Some p →
  post_afetch_full env p = inr post →
  let uri := Identity.inbox_uri (FanOut.identity fan_out) in
  let made := performed (handle_new env instance) w in
  let result := (handle_new env instance w).2 in
  (∀ doc body,
     to_create_ap env post = inr doc →
     canonicalise env doc = inr body →
     made = [call_signed_request (Post.author post) "post" uri body]
     ∧ (result = inr sent ↔ transport env (Post.author post) "post" uri body = None)
     ∧ (∀ e, transport env (Post.author post) "post" uri body = Some e →
             result = inl e))
  ∧ (result = inr sent →
     ∃ doc body,
       to_create_ap env post = inr doc
       ∧ canonicalise env doc = inr body
       ∧ made = [call_signed_request (Post.author post) "post" uri body]
       ∧ transport env (Post.author post) "post" uri body = None)
  ∧ timeline (handle_new env instance w).1 = timeline w.
Proof.
  intros Hrow Htype Hlocal Hsubject Hfetch uri made result.
  assert (FanOut.type fan_out ∈ FanOut.Types.choices) as Hkind
    by (rewrite Htype; vm_compute; constructor).
  pose proof (handle_new_remote env instance w fan_out Hrow Hkind Hlocal) as Hrun.
  unfold resolve_subject, build_body in Hrun.
  rewrite Htype, Hsubject, Hfetch in Hrun. simpl in Hrun. fold uri in Hrun.
  assert (calls (handle_new env instance w).1 = calls w ++ made) as Hcalls.
  { subst made. rewrite performed_blank. by rewrite handle_new_trace. }
  subst result. rewrite Hrun in *. clear Hrun.
  split_and!.
  - intros doc body Hdoc Hbody. rewrite Hdoc, Hbody in *. simpl in *.
    apply app_inv_head in Hcalls as <-. split_and!; [done | |].
    + destruct (transport _ _ _ _ _); split; done.
    + by intros e ->.
  - destruct (to_create_ap env post) as [e|doc] eqn:Hdoc; simpl in *; [done|].
    destruct (canonicalise env doc) as [e|body] eqn:Hbody; simpl in *; [done|].
    apply app_inv_head in Hcalls as <-.
    intros Hsent. exists doc, body. split_and!; try done.
    revert Hsent. by destruct (transport _ _ _ _ _).
  - destruct (to_create_ap env post) as [e|doc]; simpl; [done|].
    by destruct (canonicalise env doc) as [e|body].
Qed.

Lemma post_remote_one_signed_request_witness :
  performed (handle_new Sample.env Sample.create_for_carol)
            (Sample.world_of Sample.create_for_carol Sample.rows)
  = [call_signed_request Sample.bob "post" "https://c.example/inbox" "create"]
  ∧ (handle_new Sample.env Sample.create_for_carol
       (Sample.world_of Sample.create_for_carol Sample.rows)).2 = inr sent.
Proof.
  destruct (proj1 (post_remote_one_signed_request Sample.env Sample.create_for_carol
              (Sample.world_of Sample.create_for_carol Sample.rows)
              Sample.create_for_carol Sample.shout Sample.shout
              eq_refl eq_refl eq_refl eq_refl eq_refl)
              "create" "create" eq_refl eq_refl) as (Hmade & Hsent & _).
  split; [exact Hmade | by apply Hsent].
Defined.

(** ** Signed requests and locality *)

(** C10, as it stands, fails for a remote recipient: a row whose [type] is
    none of the five choices issues no request. *)
Lemma remote_exactly_one_request_counterexample :
  ¬ (Identity.local (FanOut.identity Sample.stray_for_carol) = false →
     length (List.filter is_signed_request
               (performed (handle_new Sample.env Sample.stray_for_carol)
                          (Sample.world_of Sample.stray_for_carol []))) = 1%nat).
Proof. intros Hclaim. specialize (Hclaim eq_refl). vm_compute in Hclaim. discriminate. Qed.

(** C10, amended.  For a resolved job with a local recipient the handler
    issues no signed request at all.  For one with a remote recipient every
    call it makes is a signed request with method "post" to the recipient's
    inbox URI, it makes at most one, and exactly one whenever it returns
    [sent] or, for one of the five kinds, whenever the subject resolves and
    its document is built.  A remote job whose kind matches no clause, or
    whose subject does not resolve, or whose document is not built, makes
    no call at all. *)
Theorem signed_requests_by_locality env instance w fan_out :
  fan_outs w !! FanOut.pk instance = Some fan_out →
  let identity := FanOut.identity fan_out in
  let uri := Identity.inbox_uri identity in
  let made := performed (handle_new env instance) w in
  let requests := List.filter is_signed_request made in
  (Identity.local identity = true → requests = [])
  ∧ (Identity.local identity = false →
     (length requests ≤ 1)%nat
     ∧ (∀ c, c ∈ made → ∃ actor body, c = call_signed_request actor "post" uri body)
     ∧ ((handle_new env instance w).2 = inr sent → length requests = 1%nat)
     ∧ (FanOut.type fan_out ∈ FanOut.Types.choices →
        ∀ s body,
          resolve_subject env fan_out = inr s →
          build_body env (FanOut.type fan_out) s = inr body →
          made = [call_signed_request (acting_identity s) "post" uri body])
     ∧ (FanOut.type fan_out ∉ FanOut.Types.choices → made = [])
     ∧ (FanOut.type fan_out ∈ FanOut.Types.choices →
        ∀ e, resolve_subject env fan_out = inl e → made = [])
     ∧ (FanOut.type fan_out ∈ FanOut.Types.choices →
        ∀ s e,
          resolve_subject env fan_out = inr s →
          build_body env (FanOut.type fan_out) s = inl e →
          made = [])).
Proof.
  intros Hrow identity uri made requests. split.
  - intros Hlocal. apply filter_none. intros c Hc.
    by apply (handle_new_local_calls env instance w fan_out).
  - intros Hlocal.
    assert (calls (handle_new env instance w).1 = calls w ++ made) as Hcalls.
    { subst made. rewrite performed_blank. by rewrite handle_new_trace. }
    destruct (decide (FanOut.type fan_out ∈ FanOut.Types.choices)) as [Hkind|Hkind].
    + pose proof (handle_new_remote env instance w fan_out Hrow Hkind Hlocal) as Hrun.
      fold identity uri in Hrun. rewrite Hrun in *. clear Hrun.
      destruct (resolve_subject env fan_out) as [e|s]; simpl in *.
      { rewrite <- (app_nil_r (calls w)) in Hcalls at 1.
        apply app_inv_head in Hcalls. subst requests. rewrite <- Hcalls. simpl.
        split_and!;
          [lia | by intros c ?%elem_of_nil | done | by intros _ ? ? [=]
           | done | done | done]. }
      destruct (build_body env (FanOut.type fan_out) s) as [e|body] eqn:Hbody;
        simpl in *.
      { rewrite <- (app_nil_r (calls w)) in Hcalls at 1.
        apply app_inv_head in Hcalls. subst requests. rewrite <- Hcalls. simpl.
        split_and!; [lia | by intros c ?%elem_of_nil | done | | done | done | done].
        intros _ ? ? [= <-] Hb. congruence. }
      apply app_inv_head in Hcalls. subst requests. rewrite <- Hcalls. simpl.
      split_and!; [lia | | done | | done | by intros _ ? [=] |].
      * intros c ->%list_elem_of_singleton. by eexists _, _.
      * intros _ ? ? [= <-] Hb. congruence.
      * intros _ ? ? [= <-] Hb. congruence.
    + assert (match_case (FanOut.type fan_out)
                (Identity.local (FanOut.identity fan_out)) = None) as Hcase
        by (by apply match_case_None).
      rewrite (handle_new_wildcard _ _ _ _ Hrow Hcase) in *. simpl in *.
      rewrite <- (app_nil_r (calls w)) in Hcalls at 1.
      apply app_inv_head in Hcalls. subst requests. rewrite <- Hcalls. simpl.
      split_and!; [lia | by intros c ?%elem_of_nil | done | done | done | done | done].
Qed.

Lemma signed_requests_by_locality_witness :
  List.filter is_signed_request
    (performed (handle_new Sample.env Sample.like_for_alice)
               (Sample.world_of Sample.like_for_alice Sample.rows)) = []
  ∧ performed (handle_new Sample.env_offline Sample.create_for_carol)
              (Sample.world_of Sample.create_for_carol Sample.rows)
    = [call_signed_request Sample.bob "post" "https://c.example/inbox" "create"]
  ∧ performed (handle_new Sample.env Sample.stray_for_carol)
              (Sample.world_of Sample.stray_for_carol Sample.rows) = [].
Proof.
  split_and!.
  - apply (signed_requests_by_locality Sample.env Sample.like_for_alice
             (Sample.world_of Sample.like_for_alice Sample.rows)
             Sample.like_for_alice eq_refl).
    reflexivity.
  - destruct (proj2 (signed_requests_by_locality Sample.env_offline
                       Sample.create_for_carol
                       (Sample.world_of Sample.create_for_carol Sample.rows)
                       Sample.create_for_carol eq_refl) eq_refl)
      as (_ & _ & _ & Hone & _).
    assert (FanOut.type Sample.create_for_carol ∈ FanOut.Types.choices) as Hkind
      by (vm_compute; constructor).
    apply (Hone Hkind (inl Sample.shout) "create"); reflexivity.
  - destruct (proj2 (signed_requests_by_locality Sample.env
                       Sample.stray_for_carol
                       (Sample.world_of Sample.stray_for_carol Sample.rows)
                       Sample.stray_for_carol eq_refl) eq_refl)
      as (_ & _ & _ & _ & Hnone & _).
    apply Hnone. vm_compute. intros Hin.
    repeat (apply elem_of_cons in Hin as [Hin | Hin]; [discriminate Hin|]).
    by apply elem_of_nil in Hin.
Defined.

(** ** Failure and the state graph *)

(** C5. The handler returns a state only by completing, and that state is
    [sent]; it never writes the job table, so a job that was [new] is still
    [new] when the handler raises; the state graph has the single edge from
    [new] to [sent].  An exception raised while the job or its subject is
    resolved, while the document is built, or by the transport is the
    result of the run: resolution and construction failures leave the
    world untouched, a transport failure leaves the tables untouched. *)
Theorem sent_only_on_success env instance w :
  let result := (handle_new env instance w).2 in
  let after := (handle_new env instance w).1 in
  (∀ s, result = inr s → s = sent)
  ∧ (result = inr sent ↔ ∀ e, result ≠ inl e)
  ∧ fan_outs after = fan_outs w
  ∧ (∀ a b, transitions_to a b = true ↔ a = new ∧ b = sent)
  ∧ (fan_outs w !! FanOut.pk instance = None →
     handle_new env instance w = (w, inl DoesNotExist))
  ∧ (∀ fan_out,
       fan_outs w !! FanOut.pk instance = Some fan_out →
       FanOut.type fan_out ∈ FanOut.Types.choices →
       let uri := Identity.inbox_uri (FanOut.identity fan_out) in
       (∀ e, resolve_subject env fan_out = inl e →
             handle_new env instance w = (w, inl e))
       ∧ (∀ s e, Identity.local (FanOut.identity fan_out) = false →
                 resolve_subject env fan_out = inr s →
                 build_body env (FanOut.type fan_out) s = inl e →
                 handle_new env instance w = (w, inl e))
       ∧ (∀ s body e, Identity.local (FanOut.identity fan_out) = false →
                      resolve_subject env fan_out = inr s →
                      build_body env (FanOut.type fan_out) s = inr body →
                      transport env (acting_identity s) "post" uri body = Some e →
                      result = inl e ∧ timeline after = timeline w)).
Proof.
  intros result after. subst result after. split_and!.
  - apply handle_new_returns_sent.
  - split.
    + intros -> e. discriminate.
    + intros Hno. destruct (handle_new env instance w).2 as [e|s] eqn:Hresult.
      * by destruct (Hno e).
      * by rewrite (handle_new_returns_sent _ _ _ _ Hresult).
  - apply handle_new_fan_outs.
  - intros [] []; simpl; split; try done; by intros [? ?].
  - apply handle_new_missing.
  - intros fan_out Hrow Hkind uri. split_and!.
    + intros e. by apply handle_new_unresolved_subject.
    + intros s e Hlocal Hs Hbody.
      rewrite (handle_new_remote env instance w fan_out Hrow Hkind Hlocal).
      by rewrite Hs, Hbody.
    + intros s body e Hlocal Hs Hbody Hsend.
      rewrite (handle_new_remote env instance w fan_out Hrow Hkind Hlocal).
      rewrite Hs, Hbody. simpl. fold uri. by rewrite Hsend.
Qed.

Lemma sent_only_on_success_witness :
  (handle_new Sample.env_offline Sample.create_for_carol
     (Sample.world_of Sample.create_for_carol Sample.rows)).2
  = inl (CollaboratorError "timeout")
  ∧ timeline (handle_new Sample.env_offline Sample.create_for_carol
                (Sample.world_of Sample.create_for_carol Sample.rows)).1
    = Sample.rows.
Proof.
  destruct (sent_only_on_success Sample.env_offline Sample.create_for_carol
              (Sample.world_of Sample.create_for_carol Sample.rows))
    as (_ & _ & _ & _ & _ & Hstages).
  assert (FanOut.type Sample.create_for_carol ∈ FanOut.Types.choices) as Hkind
    by (vm_compute; constructor).
  destruct (Hstages Sample.create_for_carol eq_refl Hkind) as (_ & _ & Hsend).
  apply (Hsend (inl Sample.shout) "create" (CollaboratorError "timeout"));
    reflexivity.
Defined.

(** ** Retrying a completed attempt *)

Lemma get_or_create_idempotent e rows :
  TimelineEvent.get_or_create e (TimelineEvent.get_or_create e rows)
  = TimelineEvent.get_or_create e rows.
Proof. apply get_or_create_present, elem_of_get_or_create. by left. Qed.

Lemma get_or_create_pair_idempotent a b rows :
  TimelineEvent.get_or_create b
    (TimelineEvent.get_or_create a
       (TimelineEvent.get_or_create b (TimelineEvent.get_or_create a rows)))
  = TimelineEvent.get_or_create b (TimelineEvent.get_or_create a rows).
Proof.
  set (both := TimelineEvent.get_or_create b (TimelineEvent.get_or_create a rows)).
  rewrite (get_or_create_present a both), (get_or_create_present b both); [done|..];
    subst both; rewrite !elem_of_get_or_create; auto.
Qed.

Lemma filter_idempotent {A : Type} (P : A → Prop) `{∀ x, Decision (P x)} (l : list A) :
  filter P (filter P l) = filter P l.
Proof.
  induction l as [|x l IH]; [done|]. rewrite filter_cons. case_decide as HP.
  - by rewrite filter_cons, decide_True, IH.
  - done.
Qed.

(** Running the calls of a run a second time changes nothing more. *)
Lemma effects_idempotent env instance jobs rows :
  let cs := calls (handle_new env instance (mkWorld jobs [] [])).1 in
  effects cs (effects cs rows) = effects cs rows.
Proof.
  cbv zeta. crunch; unfold effects; simpl;
    unfold TimelineEvent.add_post, TimelineEvent.add_mentioned,
      TimelineEvent.add_post_interaction, TimelineEvent.filter_adelete,
      TimelineEvent.delete_post_interaction;
    rewrite ?filter_idempotent, ?get_or_create_idempotent; try done.
  apply get_or_create_pair_idempotent.
Qed.

(** C8. When an attempt has run to completion, running the handler again
    on the world it left behind returns [sent] again and makes exactly the
    calls of the first attempt: the timeline is the one the first attempt
    left, and every signed request of the retry is one the first attempt
    had issued, with the same signer, method, URI and body.  The timeline
    operations are insertions that do nothing when the identical event is
    present and deletions that do nothing when it is absent. *)
Theorem retry_is_idempotent env instance w :
  (handle_new env instance w).2 = inr sent →
  let once := (handle_new env instance w).1 in
  let twice := (handle_new env instance once).1 in
  (handle_new env instance once).2 = inr sent
  ∧ timeline twice = timeline once
  ∧ fan_outs twice = fan_outs once
  ∧ performed (handle_new env instance) once = performed (handle_new env instance) w
  ∧ (∀ c, c ∈ outbox twice → c ∈ outbox once).
Proof.
  intros Hsent once twice.
  assert (fan_outs once = fan_outs w) as Hjobs by apply handle_new_fan_outs.
  assert (performed (handle_new env instance) once
          = performed (handle_new env instance) w) as Hsame
    by (by rewrite !performed_blank, Hjobs).
  split_and!.
  - rewrite handle_new_trace. simpl. rewrite Hjobs.
    rewrite handle_new_trace in Hsent. exact Hsent.
  - subst twice. rewrite handle_new_timeline, Hsame. subst once.
    rewrite handle_new_timeline, performed_blank. apply effects_idempotent.
  - apply handle_new_fan_outs.
  - exact Hsame.
  - intros c. unfold outbox. subst twice.
    rewrite (handle_new_trace env instance once). simpl.
    rewrite <- performed_blank, Hsame. subst once.
    rewrite (handle_new_trace env instance w). simpl. rewrite <- performed_blank.
    rewrite !List.filter_app, !elem_of_app. tauto.
Qed.

Lemma retry_is_idempotent_witness :
  timeline (handle_new Sample.env Sample.reply_for_alice
              (handle_new Sample.env Sample.reply_for_alice
                 (Sample.world_of Sample.reply_for_alice [])).1).1
  = timeline (handle_new Sample.env Sample.reply_for_alice
                (Sample.world_of Sample.reply_for_alice [])).1.
Proof.
  apply (retry_is_idempotent Sample.env Sample.reply_for_alice
           (Sample.world_of Sample.reply_for_alice [])).
  reflexivity.
Defined.

(** ** Kind and subject references *)

Lemma dispatch_other_subject env fan_out p i w :
  FanOut.type fan_out ∈ FanOut.Types.choices →
  dispatch env (with_other_subject fan_out p i) w = dispatch env fan_out w.
Proof.
  intros Htype.
  destruct fan_out as [pk [id local uri follows] type subject_post subject_interaction state].
  simpl in *. apply elem_of_choices in Htype. unfold with_other_subject, dispatch.
  destruct local, Htype as [-> | [-> | [-> | [-> | ->]]]]; reflexivity.
Qed.

(** C9, as it stands, fails: a row of kind [post] that carries an
    interaction and no post is a job like any other, and sits in the table
    the handler reads. *)
Lemma kind_subject_invariant_counterexample :
  ¬ (fan_outs (Sample.world_of Sample.mismatched [])
       !! FanOut.pk Sample.mismatched = Some Sample.mismatched →
     kind_matches_subject Sample.mismatched = true).
Proof. intros Hclaim. specialize (Hclaim eq_refl). discriminate Hclaim. Qed.

(** C9, amended.  The job's two subject references are optional and
    independent of its kind.  For a resolved job of one of the five kinds
    the handler reads only the reference the kind determines, the post for
    the three post kinds and the interaction for the two interaction kinds:
    replacing the other reference changes nothing; when the determined
    reference is absent the handler raises [AttributeError] and leaves the
    world as it was, so it returns [sent] only for a job whose determined
    reference is populated. *)
Theorem subject_read_by_kind env instance w fan_out :
  fan_outs w !! FanOut.pk instance = Some fan_out →
  FanOut.type fan_out ∈ FanOut.Types.choices →
  (∀ p i, dispatch env (with_other_subject fan_out p i) w = dispatch env fan_out w)
  ∧ (determined_subject_populated fan_out = false →
     handle_new env instance w =
       (w, inl (AttributeError "'NoneType' object has no attribute 'afetch_full'")))
  ∧ ((handle_new env instance w).2 = inr sent →
     determined_subject_populated fan_out = true).
Proof.
  intros Hrow Htype.
  assert (determined_subject_populated fan_out = false →
          handle_new env instance w =
            (w, inl (AttributeError "'NoneType' object has no attribute 'afetch_full'")))
    as Habsent.
  { intros Hnone. apply (handle_new_unresolved_subject _ _ _ fan_out); [done..|].
    unfold determined_subject_populated, resolve_subject in *.
    destruct (is_post_kind (FanOut.type fan_out)).
    - destruct (FanOut.subject_post fan_out); [|done].
      apply bool_decide_eq_false in Hnone. destruct Hnone. by eexists.
    - destruct (FanOut.subject_post_interaction fan_out); [|done].
      apply bool_decide_eq_false in Hnone. destruct Hnone. by eexists. }
  split_and!.
  - intros p i. by apply dispatch_other_subject.
  - exact Habsent.
  - intros Hsent. destruct (determined_subject_populated fan_out) eqn:Hpop; [done|].
    rewrite (Habsent eq_refl) in Hsent. discriminate Hsent.
Qed.

Lemma subject_read_by_kind_witness :
  handle_new Sample.env Sample.mismatched (Sample.world_of Sample.mismatched Sample.rows)
  = (Sample.world_of Sample.mismatched Sample.rows,
     inl (AttributeError "'NoneType' object has no attribute 'afetch_full'")).
Proof.
  assert (FanOut.type Sample.mismatched ∈ FanOut.Types.choices) as Hkind
    by (vm_compute; constructor).
  apply (subject_read_by_kind Sample.env Sample.mismatched
           (Sample.world_of Sample.mismatched Sample.rows)
           Sample.mismatched eq_refl Hkind).
  reflexivity.
Defined.

(** ** The remaining remote clauses *)

(** What a remote job of one of the five kinds does once its subject is
    resolved, stated on the calls it makes. *)
Lemma remote_delivery env instance w fan_out s :
  fan_outs w !! FanOut.pk instance = Some fan_out →
  FanOut.type fan_out ∈ FanOut.Types.choices →
  Identity.local (FanOut.identity fan_out) = false →
  resolve_subject env fan_out = inr s →
  let uri := Identity.inbox_uri (FanOut.identity fan_out) in
  let made := performed (handle_new env instance) w in
  let result := (handle_new env instance w).2 in
  (∀ body, build_body env (FanOut.type fan_out) s = inr body →
     made = [call_signed_request (acting_identity s) "post" uri body]
     ∧ (result = inr sent ↔ transport env (acting_identity s) "post" uri body = None)
     ∧ (∀ e, transport env (acting_identity s) "post" uri body = Some e →
             result = inl e))
  ∧ (∀ e, build_body env (FanOut.type fan_out) s = inl e →
          handle_new env instance w = (w, inl e) ∧ made = [])
  ∧ timeline (handle_new env instance w).1 = timeline w.
Proof.
  intros Hrow Hkind Hlocal Hs uri made result.
  pose proof (handle_new_remote env instance w fan_out Hrow Hkind Hlocal) as Hrun.
  rewrite Hs in Hrun. fold uri in Hrun.
  assert (calls (handle_new env instance w).1 = calls w ++ made) as Hcalls.
  { subst made. rewrite performed_blank. by rewrite handle_new_trace. }
  subst result. rewrite Hrun in *. clear Hrun.
  destruct (build_body env (FanOut.type fan_out) s) as [e|body]; simpl in *.
  - rewrite <- (app_nil_r (calls w)) in Hcalls at 1. apply app_inv_head in Hcalls.
    split_and!; [done | by intros ? [= <-] | done].
  - apply app_inv_head in Hcalls as <-. split_and!; [|done..].
    intros ? [= <-]. split_and!; [done | |].
    + destruct (transport _ _ _ _ _); split; done.
    + by intros e ->.
Qed.

(** X1. A resolved job of kind [post_edited] with a remote recipient whose
    post is fetched sends the update document: when [to_update_ap] and
    [canonicalise] return, one request signed by the post's author goes to
    the recipient's inbox with that body, and [sent] is returned exactly
    when the transport delivers it.  When either of the two raises, the
    exception is raised with the world untouched and no request issued. *)
Theorem post_edited_remote_sends_update env instance w fan_out p post :
  fan_outs w !! FanOut.pk instance = Some fan_out →
  FanOut.type fan_out = FanOut.Types.post_edited →
  Identity.local (FanOut.identity fan_out) = false →
  FanOut.subject_post fan_out = Some p →
  post_afetch_full env p = inr post →
  let uri := Identity.inbox_uri (FanOut.identity fan_out) in
  let made := performed (handle_new env instance) w in
  let result := (handle_new env instance w).2 in
  (∀ doc body,
     to_update_ap env post = inr doc →
     canonicalise env doc = inr body →
     made = [call_signed_request (Post.author post) "post" uri body]
     ∧ (result = inr sent ↔ transport env (Post.author post) "post" uri body = None))
  ∧ (∀ e, to_update_ap env post = inl e
          ∨ (∃ doc, to_update_ap env post = inr doc ∧ canonicalise env doc = inl e) →
          handle_new env instance w = (w, inl e) ∧ made = [])
  ∧ timeline (handle_new env instance w).1 = timeline w.
Proof.
  intros Hrow Htype Hlocal Hsubject Hfetch uri made result.
  assert (FanOut.type fan_out ∈ FanOut.Types.choices) as Hkind
    by (rewrite Htype; vm_compute; do 1 right; constructor).
  assert (resolve_subject env fan_out = inr (inl post)) as Hs
    by (unfold resolve_subject; by rewrite Htype, Hsubject, Hfetch).
  destruct (remote_delivery env instance w fan_out (inl post) Hrow Hkind Hlocal Hs)
    as (Hok & Hfail & Hrows).
  unfold build_body in Hok, Hfail. rewrite Htype in Hok, Hfail. simpl in Hok, Hfail.
  split_and!; [| |exact Hrows].
  - intros doc body Hdoc Hbody. rewrite Hdoc in Hok.
    destruct (Hok body Hbody) as (Hmade & Hsent & _). done.
  - intros e [Hdoc | (doc & Hdoc & Hbody)]; rewrite Hdoc in Hfail; by apply Hfail.
Qed.

Lemma post_edited_remote_sends_update_witness :
  performed (handle_new Sample.env Fixture.edit_for_carol)
            (Sample.world_of Fixture.edit_for_carol Sample.rows)
  = [call_signed_request Sample.bob "post" "https://c.example/inbox" "update"].
Proof.
  apply (proj1 (post_edited_remote_sends_update Sample.env Fixture.edit_for_carol
                  (Sample.world_of Fixture.edit_for_carol Sample.rows)
                  Fixture.edit_for_carol Sample.shout Sample.shout
                  eq_refl eq_refl eq_refl eq_refl eq_refl)
               "update" "update" eq_refl eq_refl).
Defined.

(** X2. A resolved job of kind [post_deleted] with a remote recipient whose
    post is fetched sends the delete document, signed by the post's author,
    to the recipient's inbox, and returns [sent] exactly when the transport
    delivers it; it deletes nothing from the timeline table.  When
    [to_delete_ap] or [canonicalise] raises, no request is issued. *)
Theorem post_deleted_remote_sends_delete env instance w fan_out p post :
  fan_outs w !! FanOut.pk instance = Some fan_out →
  FanOut.type fan_out = FanOut.Types.post_deleted →
  Identity.local (FanOut.identity fan_out) = false →
  FanOut.subject_post fan_out = Some p →
  post_afetch_full env p = inr post →
  let uri := Identity.inbox_uri (FanOut.identity fan_out) in
  let made := performed (handle_new env instance) w in
  let result := (handle_new env instance w).2 in
  (∀ doc body,
     to_delete_ap env post = inr doc →
     canonicalise env doc = inr body →
     made = [call_signed_request (Post.author post) "post" uri body]
     ∧ (result = inr sent ↔ transport env (Post.author post) "post" uri body = None))
  ∧ (∀ e, to_delete_ap env post = inl e
          ∨ (∃ doc, to_delete_ap env post = inr doc ∧ canonicalise env doc = inl e) →
          handle_new env instance w = (w, inl e) ∧ made = [])
  ∧ timeline (handle_new env instance w).1 = timeline w.
Proof.
  intros Hrow Htype Hlocal Hsubject Hfetch uri made result.
  assert (FanOut.type fan_out ∈ FanOut.Types.choices) as Hkind
    by (rewrite Htype; vm_compute; do 2 right; constructor).
  assert (resolve_subject env fan_out = inr (inl post)) as Hs
    by (unfold resolve_subject; by rewrite Htype, Hsubject, Hfetch).
  destruct (remote_delivery env instance w fan_out (inl post) Hrow Hkind Hlocal Hs)
    as (Hok & Hfail & Hrows).
  unfold build_body in Hok, Hfail. rewrite Htype in Hok, Hfail. simpl in Hok, Hfail.
  split_and!; [| |exact Hrows].
  - intros doc body Hdoc Hbody. rewrite Hdoc in Hok.
    destruct (Hok body Hbody) as (Hmade & Hsent & _). done.
  - intros e [Hdoc | (doc & Hdoc & Hbody)]; rewrite Hdoc in Hfail; by apply Hfail.
Qed.

Lemma post_deleted_remote_sends_delete_witness :
  timeline (handle_new Sample.env Fixture.delete_for_carol
              (Sample.world_of Fixture.delete_for_carol Sample.rows)).1
  = Sample.rows.
Proof.
  apply (post_deleted_remote_sends_delete Sample.env Fixture.delete_for_carol
           (Sample.world_of Fixture.delete_for_carol Sample.rows)
           Fixture.delete_for_carol Sample.shout Sample.shout
           eq_refl eq_refl eq_refl eq_refl eq_refl).
Defined.

(** X3. A resolved job of kind [interaction] with a remote recipient whose
    interaction is fetched sends the interaction's document: the request is
    signed by the identity that made the interaction, not by an author of
    any post, and goes to the recipient's inbox; [sent] is returned exactly
    when the transport delivers it.  When [to_ap] or [canonicalise] raises,
    no request is issued. *)
Theorem interaction_remote_signed_by_actor env instance w fan_out i interaction :
  fan_outs w !! FanOut.pk instance = Some fan_out →
  FanOut.type fan_out = FanOut.Types.interaction →
  Identity.local (FanOut.identity fan_out) = false →
  FanOut.subject_post_interaction fan_out = Some i →
  interaction_afetch_full env i = inr interaction →
  let uri := Identity.inbox_uri (FanOut.identity fan_out) in
  let actor := PostInteraction.identity interaction in
  let made := performed (handle_new env instance) w in
  let result := (handle_new env instance w).2 in
  (∀ doc body,
     to_ap env interaction = inr doc →
     canonicalise env doc = inr body →
     made = [call_signed_request actor "post" uri body]
     ∧ (result = inr sent ↔ transport env actor "post" uri body = None))
  ∧ (∀ e, to_ap env interaction = inl e
          ∨ (∃ doc, to_ap env interaction = inr doc ∧ canonicalise env doc = inl e) →
          handle_new env instance w = (w, inl e) ∧ made = [])
  ∧ timeline (handle_new env instance w).1 = timeline w.
Proof.
  intros Hrow Htype Hlocal Hsubject Hfetch uri actor made result.
  assert (FanOut.type fan_out ∈ FanOut.Types.choices) as Hkind
    by (rewrite Htype; vm_compute; do 3 right; constructor).
  assert (resolve_subject env fan_out = inr (inr interaction)) as Hs
    by (unfold resolve_subject; by rewrite Htype, Hsubject, Hfetch).
  destruct (remote_delivery env instance w fan_out (inr interaction)
              Hrow Hkind Hlocal Hs) as (Hok & Hfail & Hrows).
  unfold build_body in Hok, Hfail. rewrite Htype in Hok, Hfail. simpl in Hok, Hfail.
  split_and!; [| |exact Hrows].
  - intros doc body Hdoc Hbody. rewrite Hdoc in Hok.
    destruct (Hok body Hbody) as (Hmade & Hsent & _). done.
  - intros e [Hdoc | (doc & Hdoc & Hbody)]; rewrite Hdoc in Hfail; by apply Hfail.
Qed.

Lemma interaction_remote_signed_by_actor_witness :
  performed (handle_new Sample.env Fixture.like_for_bob)
            (Sample.world_of Fixture.like_for_bob Sample.rows)
  = [call_signed_request Sample.carol "post" "https://b.example/inbox" "interaction"].
Proof.
  apply (proj1 (interaction_remote_signed_by_actor Sample.env Fixture.like_for_bob
                  (Sample.world_of Fixture.like_for_bob Sample.rows)
                  Fixture.like_for_bob Sample.like Sample.like
                  eq_refl eq_refl eq_refl eq_refl eq_refl)
               "interaction" "interaction" eq_refl eq_refl).
Defined.

(** X4. A resolved job of kind [undo_interaction] with a remote recipient
    whose interaction is fetched sends the undo document, signed by the
    identity that made the interaction, to the recipient's inbox, and
    returns [sent] exactly when the transport delivers it; the timeline
    table is not touched.  When [to_undo_ap] or [canonicalise] raises, no
    request is issued. *)
Theorem undo_interaction_remote_sends_undo env instance w fan_out i interaction :
  fan_outs w !! FanOut.pk instance = Some fan_out →
  FanOut.type fan_out = FanOut.Types.undo_interaction →
  Identity.local (FanOut.identity fan_out) = false →
  FanOut.subject_post_interaction fan_out = Some i →
  interaction_afetch_full env i = inr interaction →
  let uri := Identity.inbox_uri (FanOut.identity fan_out) in
  let actor := PostInteraction.identity interaction in
  let made := performed (handle_new env instance) w in
  let result := (handle_new env instance w).2 in
  (∀ doc body,
     to_undo_ap env interaction = inr doc →
     canonicalise env doc = inr body →
     made = [call_signed_request actor "post" uri body]
     ∧ (result = inr sent ↔ transport env actor "post" uri body = None))
  ∧ (∀ e, to_undo_ap env interaction = inl e
          ∨ (∃ doc, to_undo_ap env interaction = inr doc
                    ∧ canonicalise env doc = inl e) →
          handle_new env instance w = (w, inl e) ∧ made = [])
  ∧ timeline (handle_new env instance w).1 = timeline w.
Proof.
  intros Hrow Htype Hlocal Hsubject Hfetch uri actor made result.
  assert (FanOut.type fan_out ∈ FanOut.Types.choices) as Hkind
    by (rewrite Htype; vm_compute; do 4 right; constructor).
  assert (resolve_subject env fan_out = inr (inr interaction)) as Hs
    by (unfold resolve_subject; by rewrite Htype, Hsubject, Hfetch).
  destruct (remote_delivery env instance w fan_out (inr interaction)
              Hrow Hkind Hlocal Hs) as (Hok & Hfail & Hrows).
  unfold build_body in Hok, Hfail. rewrite Htype in Hok, Hfail. simpl in Hok, Hfail.
  split_and!; [| |exact Hrows].
  - intros doc body Hdoc Hbody. rewrite Hdoc in Hok.
    destruct (Hok body Hbody) as (Hmade & Hsent & _). done.
  - intros e [Hdoc | (doc & Hdoc & Hbody)]; rewrite Hdoc in Hfail; by apply Hfail.
Qed.

Lemma undo_interaction_remote_sends_undo_witness :
  performed (handle_new Sample.env Fixture.unlike_for_bob)
            (Sample.world_of Fixture.unlike_for_bob Sample.rows)
  = [call_signed_request Sample.carol "post" "https://b.example/inbox" "undo"].
Proof.
  apply (proj1 (undo_interaction_remote_sends_undo Sample.env Fixture.unlike_for_bob
                  (Sample.world_of Fixture.unlike_for_bob Sample.rows)
                  Fixture.unlike_for_bob Sample.like Sample.like
                  eq_refl eq_refl eq_refl eq_refl eq_refl)
               "undo" "undo" eq_refl eq_refl).
Defined.

(** ** Local interactions *)

(** X5. A resolved job of kind [interaction] with a local recipient calls
    [TimelineEvent.add_post_interaction] once, for the recipient and the
    fetched interaction, whatever the recipient follows, and returns
    [sent]; it makes no other call.  When the fetch raises, the exception
    is raised with the world untouched. *)
Theorem interaction_local_adds_event env instance w fan_out i :
  fan_outs w !! FanOut.pk instance = Some fan_out →
  FanOut.type fan_out = FanOut.Types.interaction →
  Identity.local (FanOut.identity fan_out) = true →
  FanOut.subject_post_interaction fan_out = Some i →
  let identity := FanOut.identity fan_out in
  (∀ interaction,
     interaction_afetch_full env i = inr interaction →
     handle_new env instance w =
       (mkWorld (fan_outs w)
          (TimelineEvent.add_post_interaction identity interaction (timeline w))
          (calls w ++ [call_add_post_interaction identity interaction]),
        inr sent)
     ∧ performed (handle_new env instance) w
       = [call_add_post_interaction identity interaction])
  ∧ (∀ e, interaction_afetch_full env i = inl e →
          handle_new env instance w = (w, inl e)).
Proof.
  intros Hrow Htype Hlocal Hsubject identity.
  rewrite (handle_new_resolved _ _ _ _ Hrow). unfold dispatch.
  rewrite Htype, Hlocal. simpl. run. rewrite Hsubject. split.
  - intros interaction Hfetch.
    assert (dispatch env fan_out w =
              (mkWorld (fan_outs w)
                 (TimelineEvent.add_post_interaction identity interaction (timeline w))
                 (calls w ++ [call_add_post_interaction identity interaction]),
               inr sent)) as Hrun.
    { unfold dispatch. rewrite Htype, Hlocal. simpl. run.
      by rewrite Hsubject, Hfetch. }
    split.
    + by rewrite Hfetch.
    + apply performed_app. by rewrite (handle_new_resolved _ _ _ _ Hrow), Hrun.
  - intros e Hfetch. by rewrite Hfetch.
Qed.

Lemma interaction_local_adds_event_witness :
  performed (handle_new Sample.env Sample.like_for_alice)
            (Sample.world_of Sample.like_for_alice Sample.rows)
  = [call_add_post_interaction Sample.alice Sample.like].
Proof.
  apply (proj1 (interaction_local_adds_event Sample.env Sample.like_for_alice
                  (Sample.world_of Sample.like_for_alice Sample.rows)
                  Sample.like_for_alice Sample.like
                  eq_refl eq_refl eq_refl eq_refl)
               Sample.like eq_refl).
Defined.

(** X6. A resolved job of kind [undo_interaction] with a local recipient
    calls [TimelineEvent.delete_post_interaction] once, for the recipient
    and the fetched interaction, and returns [sent]; it makes no other
    call and sends nothing.  When the fetch raises, the exception is raised
    with the world untouched. *)
Theorem undo_interaction_local_deletes_event env instance w fan_out i :
  fan_outs w !! FanOut.pk instance = Some fan_out →
  FanOut.type fan_out = FanOut.Types.undo_interaction →
  Identity.local (FanOut.identity fan_out) = true →
  FanOut.subject_post_interaction fan_out = Some i →
  let identity := FanOut.identity fan_out in
  (∀ interaction,
     interaction_afetch_full env i = inr interaction →
     handle_new env instance w =
       (mkWorld (fan_outs w)
          (TimelineEvent.delete_post_interaction identity interaction (timeline w))
          (calls w ++ [call_delete_post_interaction identity interaction]),
        inr sent)
     ∧ performed (handle_new env instance) w
       = [call_delete_post_interaction identity interaction])
  ∧ (∀ e, interaction_afetch_full env i = inl e →
          handle_new env instance w = (w, inl e)).
Proof.
  intros Hrow Htype Hlocal Hsubject identity.
  rewrite (handle_new_resolved _ _ _ _ Hrow). unfold dispatch.
  rewrite Htype, Hlocal. simpl. run. rewrite Hsubject. split.
  - intros interaction Hfetch.
    assert (dispatch env fan_out w =
              (mkWorld (fan_outs w)
                 (TimelineEvent.delete_post_interaction identity interaction
                    (timeline w))
                 (calls w ++ [call_delete_post_interaction identity interaction]),
               inr sent)) as Hrun.
    { unfold dispatch. rewrite Htype, Hlocal. simpl. run.
      by rewrite Hsubject, Hfetch. }
    split.
    + by rewrite Hfetch.
    + apply performed_app. by rewrite (handle_new_resolved _ _ _ _ Hrow), Hrun.
  - intros e Hfetch. by rewrite Hfetch.
Qed.

Lemma undo_interaction_local_deletes_event_witness :
  performed (handle_new Sample.env Fixture.unlike_for_alice)
            (Sample.world_of Fixture.unlike_for_alice Sample.rows)
  = [call_delete_post_interaction Sample.alice Sample.like].
Proof.
  apply (proj1 (undo_interaction_local_deletes_event Sample.env
                  Fixture.unlike_for_alice
                  (Sample.world_of Fixture.unlike_for_alice Sample.rows)
                  Fixture.unlike_for_alice Sample.like
                  eq_refl eq_refl eq_refl eq_refl)
               Sample.like eq_refl).
Defined.

(** ** What the handler reads and what it reaches *)

(** X7. The handler depends on the instance only through its primary key
    and on the world only through the job table: two runs that agree on
    these return the same result and make the same calls, whatever the
    other fields of the instance passed in, the rows already in the
    timeline, or the calls made before. *)
Theorem handler_reads_only_job_table env i1 i2 w1 w2 :
  FanOut.pk i1 = FanOut.pk i2 →
  fan_outs w1 = fan_outs w2 →
  (handle_new env i1 w1).2 = (handle_new env i2 w2).2
  ∧ performed (handle_new env i1) w1 = performed (handle_new env i2) w2.
Proof.
  intros Hpk Hjobs.
  assert (∀ w, handle_new env i1 w = handle_new env i2 w) as Hsame
    by (intros w; unfold handle_new, afetch_full; run; by rewrite Hpk).
  split.
  - rewrite (handle_new_trace env i1 w1), (handle_new_trace env i2 w2). simpl.
    by rewrite Hjobs, Hsame.
  - rewrite !performed_blank. by rewrite Hjobs, Hsame.
Qed.

Lemma handler_reads_only_job_table_witness :
  performed (handle_new Sample.env Fixture.stale_delete)
            (Sample.world_of Sample.delete_for_alice [])
  = performed (handle_new Sample.env Sample.delete_for_alice)
              (Sample.world_of Sample.delete_for_alice Sample.rows).
Proof.
  apply (handler_reads_only_job_table Sample.env Fixture.stale_delete
           Sample.delete_for_alice (Sample.world_of Sample.delete_for_alice [])
           (Sample.world_of Sample.delete_for_alice Sample.rows)).
  - reflexivity.
  - reflexivity.
Defined.

Lemma performed_call_identity env instance w fan_out c :
  fan_outs w !! FanOut.pk instance = Some fan_out →
  c ∈ performed (handle_new env instance) w →
  is_signed_request c = false →
  call_identity c = Some (FanOut.identity fan_out).
Proof.
  intros Hrow. rewrite performed_blank.
  rewrite (handle_new_resolved env instance _ fan_out) by done.
  unfold dispatch.
  destruct (match_case _ _) as [k|]; [|by intros ?%elem_of_nil].
  destruct k; unfold run_case; run; simpl;
    repeat (case_match; simpl in *; simplify_eq; try done);
    intros Hin; repeat (apply elem_of_cons in Hin as [-> | Hin]; try done);
    by apply elem_of_nil in Hin.
Qed.

(** The rows of the timeline that belong to other identities than [rid]. *)
Lemma get_or_create_others (rid : Z) (e : TimelineEvent.t) rows :
  TimelineEvent.identity e = rid →
  filter (λ x, TimelineEvent.identity x ≠ rid) (TimelineEvent.get_or_create e rows)
  = filter (λ x, TimelineEvent.identity x ≠ rid) rows.
Proof.
  intros He. unfold TimelineEvent.get_or_create. case_decide; [done|].
  rewrite filter_app, filter_cons, decide_False by (intros Hne; by apply Hne).
  by rewrite filter_nil, app_nil_r.
Qed.

Lemma effect_others (c : Call) (identity : Identity.t) rows :
  (is_signed_request c = false → call_identity c = Some identity) →
  filter (λ x, TimelineEvent.identity x ≠ Identity.id identity) (effect c rows)
  = filter (λ x, TimelineEvent.identity x ≠ Identity.id identity) rows.
Proof.
  intros Hfor. destruct c as [i p|i p|i p|i x|i x|actor method uri body]; simpl;
    [specialize (Hfor eq_refl); injection Hfor as ->..|done].
  - by apply get_or_create_others.
  - by apply get_or_create_others.
  - unfold TimelineEvent.filter_adelete. rewrite list_filter_filter.
    apply list_filter_iff. intros row. tauto.
  - by apply get_or_create_others.
  - unfold TimelineEvent.delete_post_interaction. rewrite list_filter_filter.
    apply list_filter_iff. intros row. tauto.
Qed.

Lemma effects_others (cs : list Call) (identity : Identity.t) rows :
  (∀ c, c ∈ cs → is_signed_request c = false → call_identity c = Some identity) →
  filter (λ x, TimelineEvent.identity x ≠ Identity.id identity) (effects cs rows)
  = filter (λ x, TimelineEvent.identity x ≠ Identity.id identity) rows.
Proof.
  revert rows. induction cs as [|c cs IH]; intros rows Hfor; [done|].
  unfold effects in *. simpl. rewrite IH.
  - apply effect_others. apply Hfor. constructor.
  - intros c' Hc'. apply Hfor. by constructor.
Qed.

(** X8. Every timeline operation the handler performs for a resolved job
    is made for that job's recipient identity, and the timeline rows of
    every other identity are after the run exactly what they were before,
    in order and number: no run inserts into or deletes from the timeline
    of anybody else.  The filtered delete of [post_deleted] is the source's;
    the insertions and [delete_post_interaction] are the modelled
    [TimelineEvent] operations. *)
Theorem timeline_calls_are_for_recipient env instance w fan_out :
  fan_outs w !! FanOut.pk instance = Some fan_out →
  let recipient := Identity.id (FanOut.identity fan_out) in
  let after := timeline (handle_new env instance w).1 in
  (∀ c, c ∈ performed (handle_new env instance) w →
        is_signed_request c = false →
        call_identity c = Some (FanOut.identity fan_out))
  ∧ filter (λ e, TimelineEvent.identity e ≠ recipient) after
    = filter (λ e, TimelineEvent.identity e ≠ recipient) (timeline w)
  ∧ (∀ e, TimelineEvent.identity e ≠ recipient → (e ∈ after ↔ e ∈ timeline w)).
Proof.
  intros Hrow recipient after.
  assert (filter (λ e, TimelineEvent.identity e ≠ recipient) after
          = filter (λ e, TimelineEvent.identity e ≠ recipient) (timeline w))
    as Hothers.
  { subst after. rewrite handle_new_timeline. apply effects_others.
    intros c. by apply performed_call_identity. }
  split_and!.
  - intros c. by apply performed_call_identity.
  - exact Hothers.
  - intros e He.
    assert (∀ rows, e ∈ rows
                    ↔ e ∈ filter (λ x, TimelineEvent.identity x ≠ recipient) rows)
      as Hin by (intros rows; rewrite list_elem_of_filter; tauto).
    by rewrite (Hin after), (Hin (timeline w)), Hothers.
Qed.

Lemma timeline_calls_are_for_recipient_witness :
  filter (λ e, TimelineEvent.identity e ≠ Identity.id Sample.alice)
         (timeline (handle_new Sample.env Sample.delete_for_alice
                      (Sample.world_of Sample.delete_for_alice Sample.rows)).1)
  = [TimelineEvent.post_event Sample.dave Sample.reply].
Proof.
  refine (eq_trans (proj1 (proj2 (timeline_calls_are_for_recipient Sample.env
                                    Sample.delete_for_alice
                                    (Sample.world_of Sample.delete_for_alice
                                                     Sample.rows)
                                    Sample.delete_for_alice eq_refl))) _).
  reflexivity.
Defined.

(** X9. For a resolved job with a remote recipient the timeline table is
    left exactly as it was, whatever the kind of the job and however the
    run ends. *)
Theorem remote_never_touches_timeline env instance w fan_out :
  fan_outs w !! FanOut.pk instance = Some fan_out →
  Identity.local (FanOut.identity fan_out) = false →
  timeline (handle_new env instance w).1 = timeline w.
Proof.
  intros Hrow Hlocal.
  destruct (decide (FanOut.type fan_out ∈ FanOut.Types.choices)) as [Hkind|Hkind].
  - rewrite (handle_new_remote env instance w fan_out Hrow Hkind Hlocal).
    destruct (resolve_subject env fan_out) as [e|s]; [done|].
    by destruct (build_body env (FanOut.type fan_out) s).
  - apply match_case_None
      with (local := Identity.local (FanOut.identity fan_out)) in Hkind.
    by rewrite (handle_new_wildcard _ _ _ _ Hrow Hkind).
Qed.

Lemma remote_never_touches_timeline_witness :
  timeline (handle_new Sample.env_offline Fixture.unlike_for_bob
              (Sample.world_of Fixture.unlike_for_bob Sample.rows)).1
  = Sample.rows.
Proof.
  apply (remote_never_touches_timeline Sample.env_offline Fixture.unlike_for_bob
           (Sample.world_of Fixture.unlike_for_bob Sample.rows)
           Fixture.unlike_for_bob).
  - reflexivity.
  - reflexivity.
Defined.

(** X10. A run of the handler makes at most two calls, and it makes two
    only for a job of kind [post] or [post_edited] with a local recipient:
    [add_post] first, then [add_mentioned], both for the recipient and the
    same post. *)
Theorem at_most_two_calls env instance w :
  let made := performed (handle_new env instance) w in
  (length made ≤ 2)%nat
  ∧ (length made = 2%nat →
     ∃ fan_out post,
       fan_outs w !! FanOut.pk instance = Some fan_out
       ∧ (FanOut.type fan_out = FanOut.Types.post
          ∨ FanOut.type fan_out = FanOut.Types.post_edited)
       ∧ Identity.local (FanOut.identity fan_out) = true
       ∧ made = [call_add_post (FanOut.identity fan_out) post;
                 call_add_mentioned (FanOut.identity fan_out) post]).
Proof.
  cbv zeta. rewrite performed_blank.
  destruct (fan_outs w !! FanOut.pk instance) as [fan_out|] eqn:Hrow.
  2: { rewrite handle_new_missing by done. simpl. split; [lia | done]. }
  rewrite (handle_new_resolved env instance _ fan_out) by done.
  unfold dispatch.
  destruct (match_case _ _) as [k|] eqn:Hcase; [|simpl; split; [lia | done]].
  apply match_case_Some in Hcase as [Hlocal Htype].
  destruct k; unfold run_case; run; simpl;
    repeat (case_match; simpl in *; simplify_eq; try done);
    simpl; (split; [lia | try done]).
  intros _. by eexists _, _.
Qed.

Lemma at_most_two_calls_witness :
  ∃ fan_out post,
    fan_outs (Sample.world_of Sample.shout_for_dave [])
      !! FanOut.pk Sample.shout_for_dave = Some fan_out
    ∧ (FanOut.type fan_out = FanOut.Types.post
       ∨ FanOut.type fan_out = FanOut.Types.post_edited)
    ∧ Identity.local (FanOut.identity fan_out) = true
    ∧ performed (handle_new Sample.env Sample.shout_for_dave)
                (Sample.world_of Sample.shout_for_dave [])
      = [call_add_post (FanOut.identity fan_out) post;
         call_add_mentioned (FanOut.identity fan_out) post].
Proof.
  apply (at_most_two_calls Sample.env Sample.shout_for_dave
           (Sample.world_of Sample.shout_for_dave [])).
  reflexivity.
Defined.

(** ** More on local posts *)

(** X11. For a local recipient an edit is fanned out exactly like a
    creation: with everything else equal, a stored job of kind
    [post_edited] gives the same result, the same timeline and the same
    calls as one of kind [post]. *)
Theorem local_edit_fans_out_like_create env instance jobs rows history
    identity p i state :
  Identity.local identity = true →
  let world type :=
    mkWorld (<[FanOut.pk instance :=
                 FanOut.mk (FanOut.pk instance) identity type p i state]> jobs)
            rows history in
  let created := handle_new env instance (world FanOut.Types.post) in
  let edited := handle_new env instance (world FanOut.Types.post_edited) in
  edited.2 = created.2
  ∧ timeline edited.1 = timeline created.1
  ∧ calls edited.1 = calls created.1.
Proof.
  intros Hlocal world created edited. subst created edited world. cbv beta.
  erewrite !handle_new_resolved by (simpl; apply lookup_insert_eq).
  unfold dispatch. simpl. rewrite Hlocal. simpl. run. simpl.
  destruct p as [p|]; simpl; [|done].
  destruct (post_afetch_full env p) as [e|post]; simpl; [done|].
  destruct (add_decision identity post), (bool_decide _); done.
Qed.

Lemma local_edit_fans_out_like_create_witness :
  calls (handle_new Sample.env Sample.reply_for_alice
           (mkWorld (<[100 := FanOut.mk 100 Sample.alice FanOut.Types.post_edited
                                 (Some Sample.reply) None new]> ∅) [] [])).1
  = calls (handle_new Sample.env Sample.reply_for_alice
             (mkWorld (<[100 := FanOut.mk 100 Sample.alice FanOut.Types.post
                                   (Some Sample.reply) None new]> ∅) [] [])).1.
Proof.
  apply (local_edit_fans_out_like_create Sample.env Sample.reply_for_alice ∅ [] []
           Sample.alice (Some Sample.reply) None new).
  reflexivity.
Defined.

(** X12. The reply filter is monotone in what the recipient follows: a post
    that passes for a recipient passes for every recipient who follows at
    least the same identities. *)
Theorem reply_filter_monotone identity identity' post :
  (∀ x : Z, x ∈ Identity.outbound_follows identity →
            x ∈ Identity.outbound_follows identity') →
  add_decision identity post = true →
  add_decision identity' post = true.
Proof.
  intros Hmore. rewrite !add_decision_spec.
  intros [Hnone | (Hreply & Hauthor & x & Hx & Hfollowed)]; [by left|].
  right. split_and!; [done | by apply Hmore |]. exists x. split; [done|].
  by apply Hmore.
Qed.

Lemma reply_filter_monotone_witness :
  add_decision Fixture.erin Sample.reply = true.
Proof.
  apply (reply_filter_monotone Sample.alice Fixture.erin Sample.reply).
  - intros x Hx. vm_compute in Hx. vm_compute.
    repeat (apply elem_of_cons in Hx as [-> | Hx];
            [repeat constructor|]).
    by apply elem_of_nil in Hx.
  - reflexivity.
Defined.

(** X13. A reply that mentions nobody reaches no local timeline: for a
    resolved job of kind [post] or [post_edited] with a local recipient
    whose fetched post is such a reply, the handler makes no call at all,
    leaves the timeline as it was and still returns [sent], even when the
    recipient follows the author.  The same reply filter keeps every reply
    from a recipient who follows nobody. *)
Theorem reply_without_mentions_is_dropped env instance w fan_out p post :
  fan_outs w !! FanOut.pk instance = Some fan_out →
  FanOut.type fan_out = FanOut.Types.post
  ∨ FanOut.type fan_out = FanOut.Types.post_edited →
  Identity.local (FanOut.identity fan_out) = true →
  FanOut.subject_post fan_out = Some p →
  post_afetch_full env p = inr post →
  is_Some (Post.in_reply_to post) →
  let identity := FanOut.identity fan_out in
  let made := performed (handle_new env instance) w in
  (Post.mentions post = [] →
     made = []
     ∧ timeline (handle_new env instance w).1 = timeline w
     ∧ (handle_new env instance w).2 = inr sent)
  ∧ (Identity.outbound_follows identity = [] →
     call_add_post identity post ∉ made).
Proof.
  intros Hrow Htype Hlocal Hsubject Hfetch Hreply identity made.
  destruct (handle_new_post_local env instance w fan_out p post
              Hrow Htype Hlocal Hsubject Hfetch) as [Hmade Hafter].
  cbv zeta in Hmade, Hafter. fold identity in Hmade, Hafter.
  assert ((handle_new env instance w).2 = inr sent) as Hsent.
  { rewrite (handle_new_resolved _ _ _ _ Hrow).
    by rewrite (dispatch_post_local env fan_out w p post Htype Hlocal Hsubject Hfetch). }
  subst made. rewrite Hmade, Hafter. split.
  - intros Hnobody.
    assert (add_decision identity post = false) as ->.
    { apply not_true_is_false. rewrite add_decision_spec.
      intros [Hnone | (_ & _ & x & Hx & _)].
      - rewrite Hnone in Hreply. by destruct Hreply.
      - rewrite Hnobody in Hx. by apply elem_of_nil in Hx. }
    assert (bool_decide (Identity.id identity ∈ mentioned_of post) = false) as ->.
    { apply bool_decide_eq_false. rewrite mentioned_of_spec, Hnobody.
      apply not_elem_of_nil. }
    done.
  - intros Hnobody.
    assert (add_decision identity post = false) as ->.
    { apply not_true_is_false. rewrite add_decision_spec.
      intros [Hnone | (_ & Hauthor & _)].
      - rewrite Hnone in Hreply. by destruct Hreply.
      - rewrite Hnobody in Hauthor. by apply elem_of_nil in Hauthor. }
    simpl. destruct (bool_decide _); [|apply not_elem_of_nil].
    intros Hin%list_elem_of_singleton. discriminate Hin.
Qed.

Lemma reply_without_mentions_is_dropped_witness :
  performed (handle_new Sample.env Fixture.bare_reply_for_alice)
            (Sample.world_of Fixture.bare_reply_for_alice Sample.rows) = []
  ∧ timeline (handle_new Sample.env Fixture.bare_reply_for_alice
                (Sample.world_of Fixture.bare_reply_for_alice Sample.rows)).1
    = Sample.rows
  ∧ (handle_new Sample.env Fixture.bare_reply_for_alice
       (Sample.world_of Fixture.bare_reply_for_alice Sample.rows)).2 = inr sent.
Proof.
  apply (proj1 (reply_without_mentions_is_dropped Sample.env
                  Fixture.bare_reply_for_alice
                  (Sample.world_of Fixture.bare_reply_for_alice Sample.rows)
                  Fixture.bare_reply_for_alice Fixture.bare_reply Fixture.bare_reply
                  eq_refl (or_introl eq_refl) eq_refl eq_refl eq_refl
                  (ex_intro _ _ eq_refl))).
  reflexivity.
Defined.

(** X14. For a resolved job of kind [post] or [post_edited] with a local
    recipient whose post is fetched, [add_mentioned] is called exactly when
    the recipient is among the mentioned identities; the handler makes no
    call but [add_post] and [add_mentioned] for the recipient and that
    post, and it returns [sent] in every case, also when the reply filter
    and the mention check leave nothing to insert. *)
Theorem mention_call_exactly_when_mentioned env instance w fan_out p post :
  fan_outs w !! FanOut.pk instance = Some fan_out →
  FanOut.type fan_out = FanOut.Types.post
  ∨ FanOut.type fan_out = FanOut.Types.post_edited →
  Identity.local (FanOut.identity fan_out) = true →
  FanOut.subject_post fan_out = Some p →
  post_afetch_full env p = inr post →
  let identity := FanOut.identity fan_out in
  let made := performed (handle_new env instance) w in
  (call_add_mentioned identity post ∈ made
   ↔ Identity.id identity ∈ Identity.id <$> Post.mentions post)
  ∧ (∀ c, c ∈ made →
          c = call_add_post identity post ∨ c = call_add_mentioned identity post)
  ∧ (handle_new env instance w).2 = inr sent
  ∧ (made = [] → timeline (handle_new env instance w).1 = timeline w).
Proof.
  intros Hrow Htype Hlocal Hsubject Hfetch identity made.
  destruct (handle_new_post_local env instance w fan_out p post
              Hrow Htype Hlocal Hsubject Hfetch) as [Hmade Hafter].
  cbv zeta in Hmade, Hafter. fold identity in Hmade, Hafter.
  assert ((handle_new env instance w).2 = inr sent) as Hsent.
  { rewrite (handle_new_resolved _ _ _ _ Hrow).
    by rewrite (dispatch_post_local env fan_out w p post Htype Hlocal Hsubject Hfetch). }
  subst made. rewrite Hmade, Hafter, <- mentioned_of_spec. clear Hmade Hafter.
  split_and!; [| |exact Hsent|].
  - destruct (bool_decide (Identity.id identity ∈ mentioned_of post)) eqn:Hnamed;
      [apply bool_decide_eq_true in Hnamed | apply bool_decide_eq_false in Hnamed];
      destruct (add_decision identity post); simpl;
      rewrite ?elem_of_cons, ?elem_of_nil; intuition congruence.
  - intros c.
    destruct (add_decision identity post), (bool_decide _); simpl;
      rewrite ?elem_of_cons, ?elem_of_nil; intuition congruence.
  - destruct (add_decision identity post), (bool_decide _); simpl; done.
Qed.

Lemma mention_call_exactly_when_mentioned_witness :
  call_add_mentioned Sample.alice Sample.reply
    ∈ performed (handle_new Sample.env Sample.reply_for_alice)
                (Sample.world_of Sample.reply_for_alice [])
  ↔ Identity.id Sample.alice ∈ Identity.id <$> Post.mentions Sample.reply.
Proof.
  apply (mention_call_exactly_when_mentioned Sample.env Sample.reply_for_alice
           (Sample.world_of Sample.reply_for_alice []) Sample.reply_for_alice
           Sample.reply Sample.reply eq_refl (or_introl eq_refl)
           eq_refl eq_refl eq_refl).
Defined.

(** ** The message of the wildcard clause *)

Lemma string_append_cons (a : Ascii.ascii) (s t : string) :
  String a s +:+ t = String a (s +:+ t).
Proof. reflexivity. Qed.

Lemma string_length_append (s t : string) :
  String.length (s +:+ t) = (String.length s + String.length t)%nat.
Proof.
  induction s as [|a s IH]; [done|].
  rewrite string_append_cons. simpl. by rewrite IH.
Qed.

Lemma string_append_assoc (s t u : string) : (s +:+ t) +:+ u = s +:+ t +:+ u.
Proof.
  induction s as [|a s IH]; [done|]. rewrite !string_append_cons. by rewrite IH.
Qed.

Lemma string_append_inv_tail (s1 s2 t1 t2 : string) :
  String.length t1 = String.length t2 →
  s1 +:+ t1 = s2 +:+ t2 →
  s1 = s2 ∧ t1 = t2.
Proof.
  intros Hlen. revert s2.
  induction s1 as [|a s1 IH]; intros [|b s2] Heq.
  - done.
  - apply (f_equal String.length) in Heq.
    rewrite !string_length_append in Heq. simpl in Heq. lia.
  - apply (f_equal String.length) in Heq.
    rewrite !string_length_append in Heq. simpl in Heq. lia.
  - rewrite !string_append_cons in Heq. injection Heq as -> Heq.
    destruct (IH s2 Heq) as [-> ->]. done.
Qed.

(** X15. The message of the [ValueError] raised by the wildcard clause
    identifies the offending pair: two pairs of a [type] and a locality
    with the same message are the same pair, whatever characters the stored
    [type] contains. *)
Theorem unclassified_message_identifies type1 local1 type2 local2 :
  unclassified_message type1 local1 = unclassified_message type2 local2 →
  type1 = type2 ∧ local1 = local2.
Proof.
  unfold unclassified_message. intros Heq.
  apply (inj (String.append "Cannot fan out with type ")) in Heq.
  destruct local1, local2; simpl in Heq;
    try change (" local=" +:+ "True") with " local=True" in Heq;
    try change (" local=" +:+ "False") with " local=False" in Heq.
  - by apply string_append_inv_tail in Heq as [-> _].
  - change (" local=False") with (" " +:+ "local=False") in Heq.
    rewrite <- (string_append_assoc type2) in Heq.
    apply string_append_inv_tail in Heq as [_ Heq]; [discriminate Heq | done].
  - change (" local=False") with (" " +:+ "local=False") in Heq.
    rewrite <- (string_append_assoc type1) in Heq.
    apply string_append_inv_tail in Heq as [_ Heq]; [discriminate Heq | done].
  - by apply string_append_inv_tail in Heq as [-> _].
Qed.

Lemma unclassified_message_identifies_witness :
  "announce local=True" = "announce local=True" ∧ false = false.
Proof.
  apply (unclassified_message_identifies "announce local=True" false
           "announce local=True" false).
  reflexivity.
Defined.

(** ** One job after another *)

(** X16. Jobs do not influence each other through the handler: after a run
    for one job, a run for any job, the same or another, returns the result
    and makes the calls it would have without the first run, and the job
    table is still the one before both.  Only the timeline and the requests
    issued accumulate. *)
Theorem earlier_run_does_not_change_later env first second w :
  let between := (handle_new env first w).1 in
  (handle_new env second between).2 = (handle_new env second w).2
  ∧ performed (handle_new env second) between = performed (handle_new env second) w
  ∧ fan_outs (handle_new env second between).1 = fan_outs w
  ∧ timeline (handle_new env second between).1
    = effects (performed (handle_new env first) w
               ++ performed (handle_new env second) w) (timeline w).
Proof.
  intros between.
  assert (fan_outs between = fan_outs w) as Hjobs by apply handle_new_fan_outs.
  assert (performed (handle_new env second) between
          = performed (handle_new env second) w) as Hsame
    by (by rewrite !performed_blank, Hjobs).
  split_and!.
  - rewrite (handle_new_trace env second between),
      (handle_new_trace env second w). simpl. by rewrite Hjobs.
  - exact Hsame.
  - by rewrite handle_new_fan_outs.
  - rewrite handle_new_timeline, Hsame. subst between.
    rewrite handle_new_timeline. unfold effects. by rewrite foldl_app.
Qed.
